(** * laserscape: the layer naming convention, the partition of layers,
      the document splitter and the g-code driver

    A shallow embedding of [laserscape.py].  Python values are modelled as
    follows.

    - [str] is a list of characters.  Characters are the 256 values of
      [ascii]; [lower] maps the letters A-Z and leaves every other
      character alone, and [\d] is one of 0-9.
    - [int] is [Z]; [int(s)] is the unbounded decimal conversion.
    - an exception is a value of [exn]; code that may raise returns a
      [result], and code that also has effects is a function from a state
      to a state and a [result] (the state survives the exception).
    - the libraries laserscape drives (pyinkscape, svg_to_gcode, pathlib's
      file access) are parameters, gathered in the classes [Pyinkscape]
      and [SvgToGcode]. *)

From Stdlib Require Import ZArith QArith Qround Ascii String List Permutation Sorted Lia.
From stdpp Require Import base option list strings pretty gmap.

Open Scope Z_scope.
Open Scope list_scope.

(** ** Python strings *)

Abbreviation str := (list ascii).

Coercion list_ascii_of_string : string >-> list.

Definition is_upper (c : ascii) : bool :=
  ((65 <=? nat_of_ascii c) && (nat_of_ascii c <=? 90))%nat.

Definition lower_char (c : ascii) : ascii :=
  if is_upper c then ascii_of_nat (nat_of_ascii c + 32) else c.

(** [s.lower()] *)
Definition lower (s : str) : str := lower_char <$> s.

(** [s.startswith(p)]: what is left of [s] after [p], when [s] starts with [p]. *)
Fixpoint strip_prefix (p s : str) : option str :=
  match p, s with
  | [], _ => Some s
  | a :: p', b :: s' => if decide (a = b) then strip_prefix p' s' else None
  | _ :: _, [] => None
  end.

Definition startswith (s p : str) : bool :=
  match strip_prefix p s with Some _ => true | None => false end.

Definition is_digit (c : ascii) : bool :=
  ((48 <=? nat_of_ascii c) && (nat_of_ascii c <=? 57))%nat.

Definition digit_value (c : ascii) : Z := Z.of_nat (nat_of_ascii c) - 48.

(** [int(s)] for a string of decimal digits, the only strings the regular
    expression hands to it. *)
Definition int (s : str) : Z := foldl (fun n c => 10 * n + digit_value c) 0 s.

(** ** Exceptions *)

Inductive message :=
| NoMessage
| OutOfBounds (power : Q).   (* "{power} is out of bounds. Laser power must be ..." *)

Inductive exn :=
| ValueError (m : message)
| AttributeError
| TypeError
| NameError (name : string)
| OtherError (name : string).

Inductive result (A : Type) :=
| Ok (a : A)
| Raise (e : exn).
Arguments Ok {A} a.
Arguments Raise {A} e.

#[global] Instance result_ret : MRet result := fun A a => Ok a.
#[global] Instance result_bind : MBind result := fun A B f r =>
  match r with Ok a => f a | Raise e => Raise e end.

(** ** The regular expressions of [re] that [label_regex] uses *)

Inductive regex :=
| Lit (s : str)                  (* the characters of [s] *)
| Digits                         (* [\d+] *)
| Alt (r1 r2 : regex)            (* [r1|r2] *)
| Cat (r1 r2 : regex)            (* [r1 r2] *)
| Opt (r : regex)                (* [r?] *)
| Named (g : string) (r : regex). (* [(?P<g>r)] *)

(** A match object: the text of every named group that took part. *)
Abbreviation Match := (gmap string str).

(** The rest of [\d+] once a first digit is read: as many digits as the
    rest of the pattern, [k], accepts, trying the longest run first. *)
Fixpoint more_digits {A} (s : str) (k : str -> option A) : option A :=
  match s with
  | c :: s' =>
      if is_digit c
      then match more_digits s' k with Some a => Some a | None => k s end
      else k s
  | [] => k []
  end.

(** The backtracking matcher: [rmatch r s m k] matches [r] at the start of
    [s] and hands what is left, with the groups, to the rest of the
    pattern [k]; alternatives are tried in order, [?] and [+] longest
    first. *)
Fixpoint rmatch {A} (r : regex) (s : str) (m : Match)
    (k : str -> Match -> option A) : option A :=
  match r with
  | Lit p => match strip_prefix p s with Some s' => k s' m | None => None end
  | Digits =>
      match s with
      | c :: s' => if is_digit c then more_digits s' (fun s'' => k s'' m) else None
      | [] => None
      end
  | Alt r1 r2 =>
      match rmatch r1 s m k with Some a => Some a | None => rmatch r2 s m k end
  | Cat r1 r2 => rmatch r1 s m (fun s' m' => rmatch r2 s' m' k)
  | Opt r1 =>
      match rmatch r1 s m k with Some a => Some a | None => k s m end
  | Named g r1 =>
      rmatch r1 s m (fun s' m' => k s' (<[g := take (length s - length s') s]> m'))
  end.

(** [r.search(s)]: the match at the leftmost position that has one. *)
Fixpoint search (r : regex) (s : str) : option Match :=
  match rmatch r s ∅ (fun _ m => Some m) with
  | Some m => Some m
  | None => match s with [] => None | _ :: s' => search r s' end
  end.

(** ** Layers *)

(** A layer node of the document, as pyinkscape hands it out. *)
Record InkscapeLayer := { ID : str; label : str }.

#[global] Instance InkscapeLayer_eq_dec : EqDecision InkscapeLayer.
Proof. solve_decision. Defined.

(** [class Layer]: a wrapper around the document's layer. *)
Record Layer := { _inkscape_layer : InkscapeLayer }.

#[global] Instance Layer_eq_dec : EqDecision Layer.
Proof. solve_decision. Defined.

Definition Layer_ID (self : Layer) : str := ID (_inkscape_layer self).
Definition Layer_label (self : Layer) : str := label (_inkscape_layer self).

(** [(engrave|cut)(?P<priority>-\d+)?(?P<passes>x\d+)?(?P<cut_speed>f\d+)?(?P<laser_power>s\d+)?]
    (the first, unnamed group is never read). *)
Definition field (g : string) (c : string) : regex :=
  Opt (Named g (Cat (Lit c) Digits)).

Definition label_regex : regex :=
  Cat (Alt (Lit "engrave") (Lit "cut"))
 (Cat (field "priority" "-")
 (Cat (field "passes" "x")
 (Cat (field "cut_speed" "f")
      (field "laser_power" "s")))).

Definition is_engrave_layer (self : Layer) : bool :=
  startswith (lower (Layer_label self)) "engrave".

Definition is_cut_layer (self : Layer) : bool :=
  startswith (lower (Layer_label self)) "cut".

(** [matches.group(g)] on the result of [search]: [None] has no attribute
    [group]. *)
Definition group (matches : option Match) (g : string) : result (option str) :=
  match matches with
  | None => Raise AttributeError
  | Some m => Ok (m !! g)
  end.

Definition _parse_priority (self : Layer) : result Z :=
  let matches := search label_regex (lower (Layer_label self)) in
  m ← group matches "priority";
  match m with
  | None => Raise (ValueError NoMessage)
  | Some m => Ok (int (drop 1 m))
  end.

(** What [priority] returns: an [int], or [float("inf")]. *)
Inductive number :=
| Int (n : Z)
| Inf.

Definition priority (self : Layer) : result number :=
  match _parse_priority self with
  | Ok n => Ok (Int n)
  | Raise (ValueError _) => Ok Inf
  | Raise e => Raise e
  end.

Definition _parse_passes (self : Layer) : result Z :=
  let matches := search label_regex (lower (Layer_label self)) in
  m ← group matches "passes";
  match m with
  | None => Raise (ValueError NoMessage)
  | Some m => Ok (int (drop 1 m))
  end.

Definition passes (self : Layer) : result Z :=
  match _parse_passes self with
  | Ok n => Ok n
  | Raise (ValueError _) => Ok 1
  | Raise e => Raise e
  end.

(** [int(m[1:])/1000]: the quotient of the integer by 1000 (a float in
    Python, its value here). *)
Definition _parse_laser_power (self : Layer) : result Q :=
  let matches := search label_regex (lower (Layer_label self)) in
  m ← group matches "laser_power";
  match m with
  | None => Raise (ValueError NoMessage)
  | Some m => Ok (inject_Z (int (drop 1 m)) / 1000)%Q
  end.

(** *** Ordering: [functools.total_ordering] over [__lt__] *)

(** [p < q] on the values [priority] returns. *)
Definition number_lt (p q : number) : bool :=
  match p, q with
  | Int a, Int b => a <? b
  | Int _, Inf => true
  | Inf, _ => false
  end.

(** [hasattr(other, "priority")]: reads the property, and is false when
    that raises [AttributeError]. *)
Definition _is_valid_operand (other : Layer) : result bool :=
  match priority other with
  | Ok _ => Ok true
  | Raise AttributeError => Ok false
  | Raise e => Raise e
  end.

(** [Layer.__lt__]; [None] is [NotImplemented]. *)
Definition __lt__ (self other : Layer) : result (option bool) :=
  valid ← _is_valid_operand other;
  if negb valid then Ok None
  else p ← priority self; q ← priority other; Ok (Some (number_lt p q)).

(** The expression [a < b] on two layers: [a.__lt__(b)], and when that is
    [NotImplemented] the reflected [b.__gt__(a)], which [total_ordering]
    derives from [b.__lt__(a)]; [TypeError] when both are
    [NotImplemented].  [total_ordering] turns an answer [x] of
    [b.__lt__(a)] into [not x and b != a]; that case never arises
    ([lt_NotImplemented] below: the reflected call raises or is
    [NotImplemented] too), so the comparison of identities is left out. *)
Definition lt (a b : Layer) : result bool :=
  r ← __lt__ a b;
  match r with
  | Some x => Ok x
  | None =>
      r' ← __lt__ b a;
      match r' with
      | Some x => Ok (negb x)
      | None => Raise TypeError
      end
  end.

(** *** [list.sort()]

    The sort of a Python list is stable and compares elements with [<]
    only.  It is modelled by the stable insertion sort: an element goes
    behind the elements of the sorted rest that are smaller than it, and
    in front of the first that is not. *)
Fixpoint insort (x : Layer) (l : list Layer) : result (list Layer) :=
  match l with
  | [] => Ok [x]
  | y :: l' =>
      b ← lt y x;
      if b : bool then r ← insort x l'; Ok (y :: r) else Ok (x :: y :: l')
  end.

Fixpoint sort (l : list Layer) : result (list Layer) :=
  match l with
  | [] => Ok []
  | x :: l' => s ← sort l'; insort x s
  end.

(** ** The partition of the layers *)

Inductive Role := Engrave | Cut | Ignored.

#[global] Instance Role_eq_dec : EqDecision Role.
Proof. solve_decision. Defined.

(** The branch of the loop of [split_layers] a layer takes. *)
Definition role (layer : Layer) : Role :=
  if is_cut_layer layer then Cut
  else if is_engrave_layer layer then Engrave
  else Ignored.

(** One turn of the loop of [split_layers]. *)
Definition route (acc : list Layer * list Layer * list Layer) (layer : Layer)
    : list Layer * list Layer * list Layer :=
  let '(engrave_layers, cut_layers, ignored_layers) := acc in
  match role layer with
  | Cut => (engrave_layers, cut_layers ++ [layer], ignored_layers)
  | Engrave => (engrave_layers ++ [layer], cut_layers, ignored_layers)
  | Ignored => (engrave_layers, cut_layers, ignored_layers ++ [layer])
  end.

Definition split_layers (layers : list InkscapeLayer)
    : result (list Layer * list Layer * list Layer) :=
  let '(engrave_layers, cut_layers, ignored_layers) :=
    foldl route ([], [], []) (Build_Layer <$> layers) in
  engrave_layers ← sort engrave_layers;
  cut_layers ← sort cut_layers;
  Ok (engrave_layers, cut_layers, ignored_layers).

(** ** Paths: the part of [pathlib.PurePath] that [split] uses *)

Record PurePath := { root : str; parts : list str }.

#[global] Instance PurePath_eq_dec : EqDecision PurePath.
Proof. solve_decision. Defined.

(** [p.name]: the last component. *)
Definition name (p : PurePath) : str := List.last (parts p) [].

(** [p.parent] *)
Definition parent (p : PurePath) : PurePath :=
  {| root := root p; parts := removelast (parts p) |}.

(** [s.rfind(c)] *)
Fixpoint rfind (c : ascii) (s : str) : option nat :=
  match s with
  | [] => None
  | a :: s' =>
      match rfind c s' with
      | Some i => Some (S i)
      | None => if decide (a = c) then Some 0%nat else None
      end
  end.

(** [p.stem]: the name without its last suffix. *)
Definition stem (p : PurePath) : str :=
  let n := name p in
  match rfind "."%char n with
  | Some i => if ((0 <? i) && (i <? length n - 1))%nat then take i n else n
  | None => n
  end.

(** [s.split(c)] *)
Fixpoint split_on (c : ascii) (s : str) : list str :=
  match s with
  | [] => [[]]
  | a :: s' =>
      if decide (a = c) then [] :: split_on c s'
      else match split_on c s' with
           | w :: ws => (a :: w) :: ws
           | [] => [[a]]
           end
  end.

(** The components of a relative path: empty ones and [.] are dropped. *)
Definition components (s : str) : list str :=
  filter (fun w : str => w ≠ [] ∧ w ≠ ".") (split_on "/"%char s).

(** [p / s] for a string [s] that does not start with [/]. *)
Definition truediv (p : PurePath) (s : str) : PurePath :=
  {| root := root p; parts := parts p ++ components s |}.

(** [PurePath(s)], on a system whose paths are POSIX paths: the root is
    [/], or [//] after exactly two leading slashes. *)
Definition PurePath_of (s : str) : PurePath :=
  {| root :=
       match s with
       | "/"%char :: "/"%char :: "/"%char :: _ => "/"
       | "/"%char :: "/"%char :: _ => "//"
       | "/"%char :: _ => "/"
       | _ => []
       end;
     parts := components s |}.

(** ** The document library and the state of a run of [split]

    A document is the sequence of its layer nodes, in document order.
    Documents are objects: the state holds them in [heap], a variable
    holds the index of one, and [deepcopy] makes a new one.  [rendered]
    lists the calls of [render] made so far, failed ones included, each
    with its path and the document as it was handed over.  [print] only
    writes to the standard output, which is not part of the state. *)

Abbreviation Canvas := (list InkscapeLayer).

(** What pyinkscape does with files. *)
Class Pyinkscape (FS : Type) := {
  (** [Canvas(path)]: the document stored at [path] *)
  load : PurePath -> FS -> result Canvas;
  (** [canvas.render(path, overwrite=...)]: stores a document, or raises *)
  render_file : PurePath -> bool -> Canvas -> FS -> FS * result unit
}.

Record World (FS : Type) := {
  fs : FS;
  heap : list Canvas;
  rendered : list (PurePath * Canvas)
}.
Arguments fs {FS} w.
Arguments heap {FS} w.
Arguments rendered {FS} w.

(** Effectful code: the state goes in, the state and a value or an
    exception come out. *)
Definition M (FS A : Type) : Type := World FS -> World FS * result A.

#[global] Instance M_ret {FS} : MRet (M FS) := fun A a w => (w, Ok a).
#[global] Instance M_bind {FS} : MBind (M FS) := fun A B f c w =>
  match c w with
  | (w', Ok a) => f a w'
  | (w', Raise e) => (w', Raise e)
  end.

(** A pure computation inside effectful code. *)
Definition lift {FS A} (r : result A) : M FS A := fun w => (w, r).

(** [for x in l: f(x)] *)
Fixpoint for_each {FS A} (f : A -> M FS unit) (l : list A) : M FS unit :=
  match l with
  | [] => mret ()
  | x :: l' => f x;; for_each f l'
  end.

(** [l.delete()] on a document: the node leaves the document. *)
Fixpoint remove_node (l : InkscapeLayer) (c : Canvas) : Canvas :=
  match c with
  | [] => []
  | x :: c' => if decide (x = l) then c' else x :: remove_node l c'
  end.

Section Splitter.
Context {FS : Type} {ink : Pyinkscape FS}.

(** A new object on the heap. *)
Definition new (c : Canvas) : M FS nat := fun w =>
  ({| fs := fs w; heap := heap w ++ [c]; rendered := rendered w |},
   Ok (length (heap w))).

(** The object a variable holds. *)
Definition deref (canvas : nat) : M FS Canvas := fun w =>
  match heap w !! canvas with
  | Some c => (w, Ok c)
  | None => (w, Raise (OtherError "no such object"))
  end.

(** [Canvas(path)] *)
Definition Canvas_open (path : PurePath) : M FS nat :=
  fun w => (c ← lift (load path (fs w)); new c) w.

(** [canvas.layers()] *)
Definition layers (canvas : nat) : M FS (list InkscapeLayer) := deref canvas.

(** [copy.deepcopy(canvas)] *)
Definition deepcopy (canvas : nat) : M FS nat := c ← deref canvas; new c.

(** [l.delete()] for a layer [l] of the document [canvas] *)
Definition delete (canvas : nat) (l : InkscapeLayer) : M FS unit := fun w =>
  ({| fs := fs w; heap := alter (remove_node l) canvas (heap w);
      rendered := rendered w |}, Ok ()).

(** [canvas.render(output_path, overwrite=overwrite)] *)
Definition render (canvas : nat) (output_path : PurePath) (overwrite : bool)
    : M FS unit := fun w =>
  match heap w !! canvas with
  | Some c =>
      let '(fs', r) := render_file output_path overwrite c (fs w) in
      ({| fs := fs'; heap := heap w;
          rendered := rendered w ++ [(output_path, c)] |}, r)
  | None => (w, Raise (OtherError "no such object"))
  end.

Definition copy_with_only_this_layer (canvas : nat) (layer : Layer) : M FS nat :=
  new_canva ← deepcopy canvas;
  ls ← layers new_canva;
  for_each (fun l => if decide (ID l ≠ Layer_ID layer)
                     then delete new_canva l else mret ()) ls;;
  mret new_canva.

(** The path [split] writes a layer to. *)
Definition output_path_of (output_directory : PurePath) (base_name : str)
    (layer : Layer) : PurePath :=
  truediv output_directory (base_name ++ "-" ++ Layer_label layer ++ ".svg").

(** The body of the two loops of [split], which are the same. *)
Definition split_one (canvas : nat) (output_directory : PurePath)
    (base_name : str) (overwrite : bool) (layer : Layer) : M FS unit :=
  c ← copy_with_only_this_layer canvas layer;
  let output_path := output_path_of output_directory base_name layer in
  render c output_path overwrite.

Definition split (inkscape_file_path : PurePath) (overwrite : bool)
    (output_directory : option PurePath) : M FS unit :=
  let output_directory :=
    match output_directory with
    | None => parent inkscape_file_path
    | Some d => d
    end in
  let base_name := stem inkscape_file_path in
  canvas ← Canvas_open inkscape_file_path;
  layers ← layers canvas;
  '(engrave, cut, ignored) ← lift (split_layers layers);
  for_each (split_one canvas output_directory base_name overwrite) engrave;;
  for_each (split_one canvas output_directory base_name overwrite) cut.

End Splitter.

(** ** The g-code library and the patched compiler *)

Record Line (V : Type) := { start : V; end_ : V }.
Arguments start {V} l.
Arguments end_ {V} l.

(** [svg_to_gcode.compiler.Compiler], over the state of its interface. *)
Record Compiler (I : Type) := {
  interface : I;
  movement_speed : Z;
  cutting_speed : Z;
  pass_depth : Z;
  dwell_time : Z;
  body : list str
}.
Arguments interface {I} c.
Arguments movement_speed {I} c.
Arguments cutting_speed {I} c.
Arguments pass_depth {I} c.
Arguments dwell_time {I} c.
Arguments body {I} c.

(** What svg_to_gcode provides. *)
Class SvgToGcode (FS : Type) := {
  Curve : Type;
  Vector : Type;
  (** the state of an [interfaces.Gcode] *)
  Gcode : Type;
  (** [Compiler(interfaces.Gcode, movement_speed, cutting_speed, pass_depth)] *)
  Compiler_init : Z -> Z -> Z -> Compiler Gcode;
  position : Gcode -> option Vector;
  (** [abs(p - q) > TOLERANCES["operation"]] *)
  far : Vector -> Vector -> bool;
  laser_off : Gcode -> Gcode * str;
  set_movement_speed : Z -> Gcode -> Gcode * str;
  linear_move : Vector -> Gcode -> Gcode * str;
  dwell : Z -> Gcode -> Gcode * str;
  (** [formulas.linear_map] *)
  linear_map : Q -> Q -> Q -> Q;
  (** [LineSegmentChain.line_segment_approximation] *)
  line_segment_approximation : Curve -> list (Line Vector);
  parse_file : PurePath -> FS -> result (list Curve);
  (** [compiler.compile_to_file(path, passes=...)] *)
  compile_to_file : Compiler Gcode -> str -> Z -> FS -> FS * result unit
}.

(** Methods of the compiler: its state goes in and comes out. *)
Definition G (I A : Type) : Type := Compiler I -> Compiler I * result A.

#[global] Instance G_ret {I} : MRet (G I) := fun A a c => (c, Ok a).
#[global] Instance G_bind {I} : MBind (G I) := fun A B f m c =>
  match m c with
  | (c', Ok a) => f a c'
  | (c', Raise e) => (c', Raise e)
  end.

Section Emission.
Context {FS : Type} {lib : SvgToGcode FS}.

(** A call of a method of [self.interface]. *)
Definition call {A} (f : Gcode -> Gcode * A) : G Gcode A := fun c =>
  let '(i, a) := f (interface c) in
  ({| interface := i; movement_speed := movement_speed c;
      cutting_speed := cutting_speed c; pass_depth := pass_depth c;
      dwell_time := dwell_time c; body := body c |}, Ok a).

(** Reads an attribute of [self]. *)
Definition get {A} (f : Compiler Gcode -> A) : G Gcode A := fun c => (c, Ok (f c)).

(** [self.body.extend(code)] *)
Definition body_extend (code : list str) : G Gcode unit := fun c =>
  ({| interface := interface c; movement_speed := movement_speed c;
      cutting_speed := cutting_speed c; pass_depth := pass_depth c;
      dwell_time := dwell_time c; body := body c ++ code |}, Ok ()).

Definition raise {A} (e : exn) : G Gcode A := fun c => (c, Raise e).

Definition patched_set_laser_power (power : Q) : result str :=
  if negb (Qle_bool 0 power) || negb (Qle_bool power 1)
  then Raise (ValueError (OutOfBounds power))
  else Ok ("M3 S" ++ pretty (Qfloor (linear_map 0 255 power)) ++ ";").

(** [for line in line_chain: code.append(linear_move(line.end.x, line.end.y))] *)
Fixpoint moves (line_chain : list (Line Vector)) : G Gcode (list str) :=
  match line_chain with
  | [] => mret []
  | line :: rest =>
      m ← call (linear_move (end_ line)); ms ← moves rest; mret (m :: ms)
  end.

Definition patched_append_line_chain (line_chain : list (Line Vector))
    (laser_power : Q) : G Gcode unit :=
  match line_chain with
  | [] =>
      (* [warnings.warn(...)]: the module does not import [warnings] *)
      raise (NameError "warnings")
  | first :: _ =>
      let start := start first in
      pos ← get (fun self => position (interface self));
      code ← (if match pos with None => true | Some p => far p start end
              then
                c1 ← call laser_off;
                speed ← get movement_speed;
                c2 ← call (set_movement_speed speed);
                c3 ← call (linear_move start);
                speed ← get cutting_speed;
                c4 ← call (set_movement_speed speed);
                c5 ← (fun c => (c, patched_set_laser_power laser_power));
                let code := [c1; c2; c3; c4; c5] in
                time ← get dwell_time;
                if 0 <? time
                then d ← call (dwell time); mret (d :: code)
                else mret code
              else mret []);
      ms ← moves line_chain;
      body_extend (code ++ ms)
  end.

Fixpoint patched_append_curves (curves : list Curve) (laser_power : Q)
    : G Gcode unit :=
  match curves with
  | [] => mret ()
  | curve :: rest =>
      (* a fresh [LineSegmentChain] extended by the approximation *)
      let line_chain := line_segment_approximation curve in
      patched_append_line_chain line_chain laser_power;;
      patched_append_curves rest laser_power
  end.

Definition to_gcode (inkscape_file_path : PurePath) (files : FS)
    : FS * result unit :=
  let gcode_compiler := Compiler_init 1000 300 0 in
  match parse_file inkscape_file_path files with
  | Raise e => (files, Raise e)
  | Ok curves =>
      match patched_append_curves curves 5 gcode_compiler with
      | (_, Raise e) => (files, Raise e)
      | (gcode_compiler, Ok _) =>
          compile_to_file gcode_compiler "drawing.gcode" 2 files
      end
  end.

End Emission.

(** ** The command line *)

(** The dictionary docopt hands to [main]: the entries [split],
    [to-gcode], [<inkscape-file>] and [--overwrite]. *)
Record CommandLine := {
  arg_split : bool;
  arg_to_gcode : bool;
  arg_inkscape_file : str;
  arg_overwrite : bool
}.

(** [main]: what it returns is [None] after a command and [0] without
    one.  [to_gcode] works on the files alone. *)
Definition main {FS} {ink : Pyinkscape FS} {lib : SvgToGcode FS}
    (arguments : CommandLine) : M FS (option Z) :=
  if arg_split arguments then
    split (PurePath_of (arg_inkscape_file arguments)) (arg_overwrite arguments) None;;
    mret None
  else if arg_to_gcode arguments then
    fun w =>
      let '(files, r) := to_gcode (PurePath_of (arg_inkscape_file arguments)) (fs w) in
      ({| fs := files; heap := heap w; rendered := rendered w |},
       _ ← r; Ok None)
  else mret (Some 0).

(** * The vocabulary of the properties *)

(** ** Labels *)

(** The digits a string starts with, and what follows them. *)
Fixpoint digits_of (s : str) : str :=
  match s with
  | c :: s' => if is_digit c then c :: digits_of s' else []
  | [] => []
  end.

Fixpoint after_digits (s : str) : str :=
  match s with
  | c :: s' => if is_digit c then after_digits s' else s
  | [] => []
  end.

(** A string that does not go on with a digit. *)
Definition no_digit_ahead (s : str) : Prop :=
  match s with
  | c :: _ => is_digit c = false
  | [] => True
  end.

(** The rest of a pattern that cannot fail. *)
Definition total {A B C} (k : A -> B -> option C) : Prop := forall a b, is_Some (k a b).

(** One optional field [c<digits>] read off the front of a string: the
    text of the group, when there is one, and what is left. *)
Definition parse_field (c : ascii) (s : str) : option str * str :=
  match s with
  | a :: d :: s' =>
      if decide (a = c) then
        if is_digit d then (Some (a :: d :: digits_of s'), after_digits s')
        else (None, s)
      else (None, s)
  | _ => (None, s)
  end.

Definition record_group (g : string) (t : option str) (m : Match) : Match :=
  match t with Some t => <[g := t]> m | None => m end.

(** What [label_regex] records once its first group has matched. *)
Definition fields (s : str) : Match :=
  let f1 := parse_field "-" s in
  let f2 := parse_field "x" f1.2 in
  let f3 := parse_field "f" f2.2 in
  let f4 := parse_field "s" f3.2 in
  record_group "laser_power" f4.1
    (record_group "cut_speed" f3.1
      (record_group "passes" f2.1
        (record_group "priority" f1.1 ∅))).

(** The role prefixes. *)
Definition is_role_prefix (p : str) : Prop := p = "engrave" \/ p = "cut".

(** [sub] occurs somewhere in [s]. *)
Definition contains (s sub : str) : Prop := exists pre post, s = pre ++ sub ++ post.


(** A layer with a given label. *)
Definition labelled (i l : str) : Layer :=
  {| _inkscape_layer := {| ID := i; label := l |} |}.


(** ** Priorities and roles *)

#[global] Instance number_eq_dec : EqDecision number.
Proof. solve_decision. Defined.

(** The layers with priority [p]. *)
Definition has_priority (p : number) (layer : Layer) : Prop := priority layer = Ok p.

#[global] Instance has_priority_dec (p : number) (layer : Layer) :
  Decision (has_priority p layer).
Proof.
  unfold has_priority. destruct (priority layer) as [q|e].
  - destruct (decide (q = p)); [left | right]; congruence.
  - right. discriminate.
Defined.

Definition prioritised (layer : Layer) : Prop := exists p, priority layer = Ok p.

(** [a] may stand before [b]: [b]'s priority is not below [a]'s. *)
Definition not_after (a b : Layer) : Prop :=
  forall p q, priority a = Ok p -> priority b = Ok q -> number_lt q p = false.

Definition has_role (r : Role) (layer : Layer) : Prop := role layer = r.

#[global] Instance has_role_dec (r : Role) (layer : Layer) : Decision (has_role r layer).
Proof. unfold has_role. apply _. Defined.

(** In [out], a layer stands before every layer of higher priority. *)
Definition by_priority (out : list Layer) : Prop :=
  forall (i j : nat) (a b : Layer) (p q : number),
    out !! i = Some a -> out !! j = Some b ->
    priority a = Ok p -> priority b = Ok q ->
    number_lt p q = true -> (i < j)%nat.

(** The layers of each priority stand in [out] in the order they have in
    [bucket]. *)
Definition ties_in_order (bucket out : list Layer) : Prop :=
  forall p, filter (has_priority p) out = filter (has_priority p) bucket.

(** ** Runs of [split] *)

(** The document [split] hands to [render] for a layer with ID [k]: the
    layers of the source with that ID, the others deleted. *)
Definition only (k : str) (cv : Canvas) : Canvas := filter (fun l => ID l = k) cv.

(** The deletions of [copy_with_only_this_layer], on the document itself. *)
Definition prune (k : str) (ls : list InkscapeLayer) (c : Canvas) : Canvas :=
  foldl (fun c l => if decide (ID l ≠ k) then remove_node l c else c) c ls.

Section SplitterVocabulary.
Context {FS : Type} {ink : Pyinkscape FS}.

(** The calls of [render] that [split] is to make for the layers [ls] of
    the document [cv], in order. *)
Definition plan (dir : PurePath) (base : str) (cv : Canvas) (ls : list Layer)
    : list (PurePath * Canvas) :=
  (fun l => (output_path_of dir base l, only (Layer_ID l) cv)) <$> ls.

(** What a run made of the plan [todo], from the calls [before] to the
    calls [after] with the outcome [r]: the first [n] calls of the plan,
    all of it when it returned, and up to the call that raised when it
    raised. *)
Definition carried_out (ov : bool) (todo before after : list (PurePath * Canvas))
    (r : result unit) : Prop :=
  exists n : nat,
    after = before ++ take n todo /\
    match r with
    | Ok _ => n = length todo
    | Raise err =>
        (0 < n <= length todo)%nat /\
        exists p doc files,
          todo !! (n - 1)%nat = Some (p, doc) /\
          (render_file p ov doc files).2 = Raise err
    end.

End SplitterVocabulary.

(** [p.suffix]: the last suffix of the name. *)
Definition suffix (p : PurePath) : str :=
  let n := name p in
  match rfind "."%char n with
  | Some i => if ((0 <? i) && (i <? length n - 1))%nat then drop i n else []
  | None => []
  end.

#[global] Instance PurePath_countable : Countable PurePath.
Proof.
  refine (inj_countable' (fun p => (root p, parts p))
            (fun x => {| root := x.1; parts := x.2 |}) _).
  by intros [].
Defined.

(** ** A document library *)

(** Modelled from the spec: pyinkscape, the document library the module
    imports, is not among the sources.  Files are a map from paths to
    documents;
    [Canvas(path)] reads the document at [path], and [render] persists "a
    document to a path with an overwrite flag that fails when the flag is
    false and the path exists". *)
Definition files_load (path : PurePath) (files : gmap PurePath Canvas)
    : result Canvas :=
  match files !! path with
  | Some doc => Ok doc
  | None => Raise (OtherError "FileNotFoundError")
  end.

Definition files_render (path : PurePath) (overwrite : bool) (doc : Canvas)
    (files : gmap PurePath Canvas) : gmap PurePath Canvas * result unit :=
  if negb overwrite && bool_decide (is_Some (files !! path))
  then (files, Raise (OtherError "FileExistsError"))
  else (<[path := doc]> files, Ok ()).

Definition files_pyinkscape : Pyinkscape (gmap PurePath Canvas) :=
  {| load := files_load; render_file := files_render |}.

(** A run used as an example: the document [art/plan.svg] has an ignored
    layer, a cut layer and an engrave layer, and the file the engrave
    layer is to be written to is there already. *)
Definition plan_svg : PurePath := {| root := []; parts := ["art" : str; "plan.svg" : str] |}.

Definition guide : InkscapeLayer := {| ID := "layer1"; label := "Guides" |}.
Definition outline : InkscapeLayer := {| ID := "layer2"; label := "Cut-2" |}.
Definition logo : InkscapeLayer := {| ID := "layer3"; label := "Engrave-1" |}.

Definition plan_doc : Canvas := [guide; outline; logo].


Definition plan_cut_svg : PurePath :=
  {| root := []; parts := ["art" : str; "plan-Cut-2.svg" : str] |}.


Definition first_run : World (gmap PurePath Canvas) :=
  {| fs := <[plan_svg := plan_doc]> ∅; heap := []; rendered := [] |}.

(** A document whose two layers have the same label, stored under a name
    with another suffix. *)
Definition sign_SVG : PurePath := {| root := []; parts := ["art" : str; "sign.SVG" : str] |}.

Definition sign_cut_svg : PurePath :=
  {| root := []; parts := ["art" : str; "sign-cut.svg" : str] |}.

Definition inner : InkscapeLayer := {| ID := "layer1"; label := "cut" |}.
Definition outer : InkscapeLayer := {| ID := "layer2"; label := "cut" |}.

Definition sign_doc : Canvas := [inner; outer].

Definition sign_run : World (gmap PurePath Canvas) :=
  {| fs := <[sign_SVG := sign_doc]> ∅; heap := []; rendered := [] |}.



(** ** A g-code library *)

(** A small instance of the g-code library, for examples.  A curve is
    given by the line segments that approximate it, the interface keeps
    its position, and the files are the curves of the drawing together
    with the programs written so far. *)
Definition toy_library : SvgToGcode (list (list (Line (Z * Z))) * list (str * list str)) :=
  {| Curve := list (Line (Z * Z));
     Vector := Z * Z;
     Gcode := option (Z * Z);
     Compiler_init ms cs pd :=
       {| interface := None; movement_speed := ms; cutting_speed := cs;
          pass_depth := pd; dwell_time := 0; body := [] |};
     position i := i;
     far p q := negb (bool_decide (p = q));
     laser_off i := (i, "M5;" : str);
     set_movement_speed _ i := (i, [] : str);
     linear_move v _ := (Some v, "G1;" : str);
     dwell _ i := (i, "G4;" : str);
     linear_map lo hi t := (lo + t * (hi - lo))%Q;
     line_segment_approximation c := c;
     parse_file _ files := Ok files.1;
     compile_to_file c path _ files := ((files.1, files.2 ++ [(path, body c)]), Ok ()) |}.

Definition drawing_svg : PurePath := {| root := []; parts := ["drawing.svg" : str] |}.

Definition stroke : Line (Z * Z) := {| start := (0, 0); end_ := (10, 0) |}.

(** An instance of the g-code library over the files of the document
    library, for examples: every layer of a document is one stroke, and
    programs are not kept. *)
Definition files_svg_to_gcode : SvgToGcode (gmap PurePath Canvas) :=
  {| Curve := list (Line (Z * Z));
     Vector := Z * Z;
     Gcode := option (Z * Z);
     Compiler_init ms cs pd :=
       {| interface := None; movement_speed := ms; cutting_speed := cs;
          pass_depth := pd; dwell_time := 0; body := [] |};
     position i := i;
     far p q := negb (bool_decide (p = q));
     laser_off i := (i, "M5;" : str);
     set_movement_speed _ i := (i, [] : str);
     linear_move v _ := (Some v, "G1;" : str);
     dwell _ i := (i, "G4;" : str);
     linear_map lo hi t := (lo + t * (hi - lo))%Q;
     line_segment_approximation c := c;
     parse_file path files :=
       match files !! path with
       | Some doc => Ok ((fun _ => [stroke]) <$> doc)
       | None => Raise (OtherError "FileNotFoundError")
       end;
     compile_to_file _ _ _ files := (files, Ok ()) |}.

(** The command line [laserscape split art/plan.svg]. *)
Definition split_plan : CommandLine :=
  {| arg_split := true; arg_to_gcode := false;
     arg_inkscape_file := "art/plan.svg"; arg_overwrite := false |}.

(** ** More on labels *)


(** ** More on the compiler *)

Section EmissionVocabulary.
Context {FS : Type} {lib : SvgToGcode FS}.

(** The settings of a compiler, which appending chains leaves alone. *)
Definition same_settings (c c' : Compiler Gcode) : Prop :=
  movement_speed c' = movement_speed c /\ cutting_speed c' = cutting_speed c /\
  pass_depth c' = pass_depth c /\ dwell_time c' = dwell_time c.

(** The test of [patched_append_line_chain]: the interface has no position
    yet, or one far from the start of the chain. *)
Definition away_from (c : Compiler Gcode) (first : Line Vector) : bool :=
  match position (interface c) with
  | None => true
  | Some p => far p (start first)
  end.

(** A compiler with another state of its interface. *)
Definition with_interface (i : Gcode) (c : Compiler Gcode) : Compiler Gcode :=
  {| interface := i; movement_speed := movement_speed c;
     cutting_speed := cutting_speed c; pass_depth := pass_depth c;
     dwell_time := dwell_time c; body := body c |}.

End EmissionVocabulary.

(** * Properties *)

(** ** Strings *)

Lemma strip_prefix_Some (p s r : str) : strip_prefix p s = Some r <-> s = p ++ r.
Proof.
  revert s. induction p as [|a p IH]; intros [|b s]; simpl.
  - split; congruence.
  - split; congruence.
  - split; [discriminate | intros H; discriminate H].
  - destruct (decide (a = b)) as [->|Hne].
    + rewrite IH. split; congruence.
    + split; [discriminate | intros [= H _]; done].
Qed.

Lemma strip_prefix_app (p s : str) : strip_prefix p (p ++ s) = Some s.
Proof. by apply strip_prefix_Some. Qed.

Lemma startswith_spec (s p : str) : startswith s p = true <-> exists r, s = p ++ r.
Proof.
  unfold startswith. destruct (strip_prefix p s) as [r|] eqn:E.
  - apply strip_prefix_Some in E. split; eauto.
  - split; [discriminate|]. intros [r Hr].
    apply strip_prefix_Some in Hr. congruence.
Qed.

Lemma digits_after (s : str) : digits_of s ++ after_digits s = s.
Proof. induction s as [|c s IH]; simpl; [done|]. destruct (is_digit c); simpl; congruence. Qed.


Lemma after_digits_no_digit (s : str) : no_digit_ahead (after_digits s).
Proof.
  induction s as [|c s IH]; simpl; [done|].
  destruct (is_digit c) eqn:E; simpl; done.
Qed.

Lemma int_snoc (ds : str) (d : ascii) : int (ds ++ [d]) = 10 * int ds + digit_value d.
Proof. unfold int. by rewrite foldl_app. Qed.

(** ** The matcher on [label_regex] *)

Lemma more_digits_greedy {A} (s : str) (k : str -> option A) :
  (forall s', is_Some (k s')) -> more_digits s k = k (after_digits s).
Proof.
  intros Hk. induction s as [|c s IH]; simpl; [done|].
  destruct (is_digit c); [|done].
  rewrite IH. by destruct (Hk (after_digits s)) as [a ->].
Qed.

Lemma rmatch_field {A} (g : string) (c : ascii) (s : str) (m : Match)
    (k : str -> Match -> option A) :
  total k ->
  rmatch (field g (String c EmptyString)) s m k
  = k (parse_field c s).2 (record_group g (parse_field c s).1 m).
Proof.
  intros Hk. unfold field. cbn [rmatch list_ascii_of_string strip_prefix].
  destruct s as [|a [|d s]]; simpl; [done| |].
  - destruct (decide (c = a)); done.
  - destruct (decide (c = a)) as [->|Hne].
    + rewrite decide_True by done.
      destruct (is_digit d) eqn:Hd; simpl; [|done].
      rewrite more_digits_greedy by (intros; apply Hk).
      assert (Hlen : (length (a :: d :: s) - length (after_digits s) = 2 + length (digits_of s))%nat).
      { rewrite <- (digits_after s) at 1. simpl. rewrite length_app. lia. }
      simpl length in Hlen. rewrite Hlen.
      assert (Htake : take (2 + length (digits_of s)) (a :: d :: s) = a :: d :: digits_of s).
      { simpl. f_equal. f_equal. rewrite <- (digits_after s) at 2.
        by rewrite take_app_length. }
      rewrite Htake.
      destruct (Hk (after_digits s) (<[g:=a :: d :: digits_of s]> m)) as [x ->]. done.
    + rewrite decide_False by congruence. done.
Qed.

Lemma total_field {A} (g : string) (c : ascii) (k : str -> Match -> option A) :
  total k -> total (fun s m => rmatch (field g (String c EmptyString)) s m k).
Proof. intros Hk s m. rewrite rmatch_field by done. apply Hk. Qed.

Lemma rmatch_optional_fields (s : str) :
  rmatch (Cat (field "priority" "-") (Cat (field "passes" "x")
           (Cat (field "cut_speed" "f") (field "laser_power" "s"))))
         s ∅ (fun _ m => Some m) = Some (fields s).
Proof.
  cbn [rmatch].
  assert (H4 : total (fun (_ : str) (m : Match) => Some m)) by (intros ??; eauto).
  pose proof (total_field "laser_power" "s" _ H4) as H3.
  pose proof (total_field "cut_speed" "f" _ H3) as H2.
  pose proof (total_field "passes" "x" _ H2) as H1.
  rewrite (rmatch_field "priority") by exact H1.
  rewrite (rmatch_field "passes") by exact H2.
  rewrite (rmatch_field "cut_speed") by exact H3.
  rewrite (rmatch_field "laser_power") by exact H4.
  done.
Qed.

Lemma rmatch_role {A} (p rest : str) (m : Match) (k : str -> Match -> option A) :
  is_role_prefix p -> is_Some (k rest m) ->
  rmatch (Alt (Lit "engrave") (Lit "cut")) (p ++ rest) m k = k rest m.
Proof.
  intros [-> | ->] [x Hx]; cbn [rmatch].
  - by rewrite strip_prefix_app, Hx.
  - simpl. by rewrite Hx.
Qed.

Lemma rmatch_label_regex (p rest : str) :
  is_role_prefix p ->
  rmatch label_regex (p ++ rest) ∅ (fun _ m => Some m) = Some (fields rest).
Proof.
  intros Hp. unfold label_regex.
  change (rmatch (Cat ?r1 ?r2) ?s ?m ?k)
    with (rmatch r1 s m (fun s' m' => rmatch r2 s' m' k)) at 1.
  rewrite rmatch_role; [apply rmatch_optional_fields | done |].
  rewrite rmatch_optional_fields. eauto.
Qed.

Lemma search_here (r : regex) (s : str) (m : Match) :
  rmatch r s ∅ (fun _ m => Some m) = Some m -> search r s = Some m.
Proof. intros H. destruct s; cbn [search]; by rewrite H. Qed.

Lemma search_role_prefix (p rest : str) :
  is_role_prefix p -> search label_regex (p ++ rest) = Some (fields rest).
Proof. intros Hp. by apply search_here, rmatch_label_regex. Qed.

Lemma rmatch_label_regex_None {A} (s : str) (m : Match) (k : str -> Match -> option A) :
  startswith s "engrave" = false -> startswith s "cut" = false ->
  rmatch label_regex s m k = None.
Proof.
  unfold startswith, label_regex. cbn [rmatch]. intros He Hc.
  destruct (strip_prefix "engrave" s); [done|].
  destruct (strip_prefix "cut" s); done.
Qed.

Lemma contains_cons (a : ascii) (s sub : str) : contains s sub -> contains (a :: s) sub.
Proof. intros (pre & post & ->). by exists (a :: pre), post. Qed.

Lemma search_None (s : str) :
  ~ contains s "engrave" -> ~ contains s "cut" -> search label_regex s = None.
Proof.
  induction s as [|a s IH]; intros He Hc.
  - cbn [search]. by rewrite rmatch_label_regex_None.
  - cbn [search]. rewrite rmatch_label_regex_None.
    + apply IH; intros H; [apply He | apply Hc]; by apply contains_cons.
    + destruct (startswith (a :: s) "engrave") eqn:E; [|done].
      apply startswith_spec in E as [r Hr]. destruct He. by exists [], r.
    + destruct (startswith (a :: s) "cut") eqn:E; [|done].
      apply startswith_spec in E as [r Hr]. destruct Hc. by exists [], r.
Qed.

Lemma search_Some (s : str) :
  contains s "engrave" \/ contains s "cut" -> is_Some (search label_regex s).
Proof.
  assert (H : forall pre p post, is_role_prefix p ->
            is_Some (search label_regex (pre ++ p ++ post))).
  { induction pre as [|a pre IH]; intros p post Hp.
    - simpl. rewrite search_role_prefix by done. eauto.
    - change ((a :: pre) ++ p ++ post) with (a :: (pre ++ p ++ post)).
      cbn [search]. destruct (rmatch label_regex _ _ _); eauto. }
  intros [(pre & post & ->) | (pre & post & ->)]; apply H; [by left | by right].
Qed.

(** ** The fields of a label *)



Lemma fields_priority (s : str) : fields s !! "priority" = (parse_field "-" s).1.
Proof.
  unfold fields, record_group.
  repeat match goal with |- context [match ?o with _ => _ end] => destruct o end;
    by simplify_map_eq.
Qed.

Lemma fields_passes (s : str) :
  fields s !! "passes" = (parse_field "x" (parse_field "-" s).2).1.
Proof.
  unfold fields, record_group.
  repeat match goal with |- context [match ?o with _ => _ end] => destruct o end;
    by simplify_map_eq.
Qed.

Lemma priority_role_prefix (layer : Layer) (p rest : str) :
  lower (Layer_label layer) = p ++ rest -> is_role_prefix p ->
  priority layer =
    match (parse_field "-" rest).1 with
    | Some t => Ok (Int (int (drop 1 t)))
    | None => Ok Inf
    end.
Proof.
  intros Hl Hp. unfold priority, _parse_priority.
  rewrite Hl, search_role_prefix by done. simpl.
  rewrite fields_priority. by destruct (parse_field "-" rest).1.
Qed.

Lemma passes_role_prefix (layer : Layer) (p rest : str) :
  lower (Layer_label layer) = p ++ rest -> is_role_prefix p ->
  passes layer =
    match (parse_field "x" (parse_field "-" rest).2).1 with
    | Some t => Ok (int (drop 1 t))
    | None => Ok 1
    end.
Proof.
  intros Hl Hp. unfold passes, _parse_passes.
  rewrite Hl, search_role_prefix by done. simpl.
  rewrite fields_passes. by destruct (parse_field "x" _).1.
Qed.

(** ** The classifier *)

(** C1. The branch of [split_layers] a layer takes is the engrave one when
    its lower-cased label starts with "engrave", the cut one when it starts
    with "cut", and the ignored one otherwise; "ENGRAVE-2" is engraved,
    "CuT-42" is cut and "-foo" is ignored. *)
Theorem role_by_prefix :
  (forall layer : Layer,
     ((exists rest, lower (Layer_label layer) = "engrave" ++ rest) -> role layer = Engrave) /\
     ((exists rest, lower (Layer_label layer) = "cut" ++ rest) -> role layer = Cut) /\
     (~ (exists rest, lower (Layer_label layer) = "engrave" ++ rest) ->
      ~ (exists rest, lower (Layer_label layer) = "cut" ++ rest) -> role layer = Ignored)) /\
  (forall i, role (labelled i "ENGRAVE-2") = Engrave) /\
  (forall i, role (labelled i "CuT-42") = Cut) /\
  (forall i, role (labelled i "-foo") = Ignored).
Proof.
  split; [|by repeat split].
  intros layer. unfold role, is_cut_layer, is_engrave_layer.
  repeat split.
  - intros [rest Hr]. rewrite Hr.
    assert (startswith ("engrave" ++ rest) "engrave" = true) as ->
      by (apply startswith_spec; eauto).
    done.
  - intros H. apply startswith_spec in H. by rewrite H.
  - intros He Hc.
    destruct (startswith _ "cut") eqn:E1; [apply startswith_spec in E1; done|].
    destruct (startswith _ "engrave") eqn:E2; [apply startswith_spec in E2; done|].
    done.
Qed.




Lemma role_not_Ignored (layer : Layer) :
  role layer <> Ignored ->
  exists p rest, lower (Layer_label layer) = p ++ rest /\ is_role_prefix p.
Proof.
  unfold role, is_cut_layer, is_engrave_layer. intros H.
  destruct (startswith _ "cut") eqn:Ec.
  { apply startswith_spec in Ec as [r Hr]. exists "cut", r. split; [done | by right]. }
  destruct (startswith _ "engrave") eqn:Ee; [|done].
  apply startswith_spec in Ee as [r Hr]. exists "engrave", r. split; [done | by left].
Qed.

(** A layer that is engraved or cut has a priority and a number of passes. *)
Lemma role_priority_Ok (layer : Layer) :
  role layer <> Ignored -> exists p, priority layer = Ok p.
Proof.
  intros (p & rest & Hl & Hp)%role_not_Ignored.
  rewrite (priority_role_prefix layer p rest Hl Hp).
  destruct (parse_field "-" rest).1; eauto.
Qed.

Lemma role_passes_Ok (layer : Layer) :
  role layer <> Ignored -> exists n, passes layer = Ok n.
Proof.
  intros (p & rest & Hl & Hp)%role_not_Ignored.
  rewrite (passes_role_prefix layer p rest Hl Hp).
  destruct (parse_field "x" _).1; eauto.
Qed.

(** C10. On a label in which, once lower-cased, neither "engrave" nor
    "cut" occurs, reading [priority] or [passes] raises [AttributeError]:
    the search finds no match, and only [ValueError] is caught.  A layer
    whose label starts with a role prefix has both values. *)
Theorem no_role_word_raises :
  (forall layer : Layer,
     ~ contains (lower (Layer_label layer)) "engrave" ->
     ~ contains (lower (Layer_label layer)) "cut" ->
     priority layer = Raise AttributeError /\ passes layer = Raise AttributeError) /\
  (forall layer : Layer,
     role layer <> Ignored ->
     (exists p, priority layer = Ok p) /\ (exists n, passes layer = Ok n)) /\
  (forall i, priority (labelled i "-foo") = Raise AttributeError) /\
  (forall i, passes (labelled i "-foo") = Raise AttributeError).
Proof.
  split; [|split; [|by split]].
  - intros layer He Hc.
    unfold priority, _parse_priority, passes, _parse_passes.
    by rewrite search_None.
  - intros layer H. split; [by apply role_priority_Ok | by apply role_passes_Ok].
Qed.

(** The exception is raised on exactly those labels. *)
Lemma priority_AttributeError_iff (layer : Layer) :
  priority layer = Raise AttributeError <->
  ~ contains (lower (Layer_label layer)) "engrave" /\
  ~ contains (lower (Layer_label layer)) "cut".
Proof.
  split.
  - intros H. unfold priority, _parse_priority in H.
    split; intros Hc.
    + destruct (search_Some (lower (Layer_label layer))) as [m Hm]; [by left|].
      rewrite Hm in H. simpl in H. destruct (m !! "priority"); done.
    + destruct (search_Some (lower (Layer_label layer))) as [m Hm]; [by right|].
      rewrite Hm in H. simpl in H. destruct (m !! "priority"); done.
  - intros [He Hc]. unfold priority, _parse_priority. by rewrite search_None.
Qed.

(** ** The order and the sort *)

Lemma number_lt_asym (p q : number) : number_lt p q = true -> number_lt q p = false.
Proof. destruct p, q; simpl; try done. intros H. apply Z.ltb_ge. apply Z.ltb_lt in H. lia. Qed.

Lemma number_lt_irrefl (p : number) : number_lt p p = false.
Proof. destruct p; simpl; [apply Z.ltb_irrefl | done]. Qed.

Lemma number_le_trans (p q r : number) :
  number_lt q p = false -> number_lt r q = false -> number_lt r p = false.
Proof.
  destruct p, q, r; simpl; try done.
  rewrite !Z.ltb_ge. lia.
Qed.

Lemma not_after_trans (a b c : Layer) :
  prioritised b -> not_after a b -> not_after b c -> not_after a c.
Proof.
  intros [q Hq] Hab Hbc p r Hp Hr.
  eapply number_le_trans; [by apply Hab | by apply Hbc].
Qed.

Lemma priority_Raise (layer : Layer) (e : exn) :
  priority layer = Raise e -> e = AttributeError.
Proof.
  unfold priority, _parse_priority, group.
  destruct (search label_regex _) as [m|]; simpl.
  - by destruct (m !! "priority").
  - congruence.
Qed.

(** When [a.__lt__(b)] is [NotImplemented], [a < b] raises: the reflected
    call never answers. *)
Lemma lt_NotImplemented (a b : Layer) :
  __lt__ a b = Ok None ->
  lt a b = Raise AttributeError \/ lt a b = Raise TypeError.
Proof.
  intros H. unfold lt. rewrite H. simpl.
  unfold __lt__, _is_valid_operand in *.
  destruct (priority b) as [q|eb] eqn:Hb; simpl in H.
  { by destruct (priority a). }
  apply priority_Raise in Hb as Heb. subst eb.
  destruct (priority a) as [p|ea] eqn:Ha; simpl.
  - by left.
  - apply priority_Raise in Ha as ->. by right.
Qed.

Lemma lt_prioritised (a b : Layer) (p q : number) :
  priority a = Ok p -> priority b = Ok q -> lt a b = Ok (number_lt p q).
Proof.
  intros Ha Hb. unfold lt, __lt__, _is_valid_operand. by rewrite Hb, Ha.
Qed.

Lemma insort_spec (x : Layer) (l : list Layer) :
  prioritised x -> Forall prioritised l ->
  exists r, insort x l = Ok r /\ r ≡ₚ x :: l /\
    (StronglySorted not_after l -> StronglySorted not_after r) /\
    (forall p, filter (has_priority p) r = filter (has_priority p) (x :: l)).
Proof.
  intros [px Hx] Hl. induction Hl as [|y l [py Hy] Hl IH].
  - exists [x]. repeat split; try done. intros _. repeat constructor.
  - destruct IH as (r & Hr & Hperm & Hsorted & Hstable).
    cbn [insort]. rewrite (lt_prioritised y x py px Hy Hx). simpl.
    destruct (number_lt py px) eqn:Hlt.
    + rewrite Hr. simpl. exists (y :: r). split; [done|]. split; [|split].
      * rewrite Hperm. apply perm_swap.
      * intros Hs. apply StronglySorted_inv in Hs as [Hs Hall].
        constructor; [by apply Hsorted|].
        rewrite Hperm. constructor; [|done].
        intros p q Hp Hq. assert (p = py) as -> by congruence.
        assert (q = px) as -> by congruence. by apply number_lt_asym.
      * intros p. rewrite !filter_cons, Hstable, filter_cons.
        destruct (decide (has_priority p y)) as [Hpy|]; [|done].
        destruct (decide (has_priority p x)) as [Hpx|]; [|done].
        unfold has_priority in *. assert (py = px) as -> by congruence.
        by rewrite number_lt_irrefl in Hlt.
    + exists (x :: y :: l). repeat split; try done.
      intros Hs. constructor; [done|].
      assert (Hxy : not_after x y).
      { intros p q Hp Hq. assert (p = px) as -> by congruence.
        assert (q = py) as -> by congruence. done. }
      constructor; [done|].
      apply StronglySorted_inv in Hs as [_ Hall].
      eapply Forall_impl; [exact Hall|]. intros z Hz.
      eapply not_after_trans; [by exists py | done | done].
Qed.

Lemma sort_spec (l : list Layer) :
  Forall prioritised l ->
  exists r, sort l = Ok r /\ r ≡ₚ l /\ StronglySorted not_after r /\
    (forall p, filter (has_priority p) r = filter (has_priority p) l).
Proof.
  induction 1 as [|x l Hx Hl IH].
  - exists []. repeat split; try done. constructor.
  - destruct IH as (s & Hs & Hperm & Hsorted & Hstable).
    destruct (insort_spec x s Hx) as (r & Hr & Hperm' & Hsorted' & Hstable').
    { by rewrite Hperm. }
    exists r. cbn [sort]. rewrite Hs. simpl. split; [done|].
    split; [by rewrite Hperm', Hperm|]. split; [by apply Hsorted'|].
    intros p. by rewrite Hstable', !filter_cons, Hstable.
Qed.

(** In a sorted list, a layer of lower priority stands before one of
    higher priority. *)
Lemma sorted_precedes (l : list Layer) (i j : nat) (a b : Layer) (p q : number) :
  StronglySorted not_after l ->
  l !! i = Some a -> l !! j = Some b ->
  priority a = Ok p -> priority b = Ok q -> number_lt p q = true ->
  (i < j)%nat.
Proof.
  intros Hs. revert i j. induction Hs as [|x l Hs IH Hall]; intros i j Hi Hj Hp Hq Hlt.
  - done.
  - destruct i as [|i], j as [|j]; simpl in *.
    + assert (a = b) as -> by congruence. assert (p = q) as -> by congruence.
      by rewrite number_lt_irrefl in Hlt.
    + lia.
    + injection Hj as ->.
      rewrite Forall_forall in Hall.
      assert (Hba : not_after b a) by (apply Hall; eapply list_elem_of_lookup_2; done).
      by rewrite (Hba q p Hq Hp) in Hlt.
    + apply -> Nat.succ_lt_mono. by eapply IH.
Qed.

Lemma number_lt_total (p q : number) :
  number_lt p q = false -> number_lt q p = false -> p = q.
Proof.
  destruct p, q; simpl; try done.
  rewrite !Z.ltb_ge. intros. f_equal. lia.
Qed.

Lemma filter_priority_cons (p : number) (x : Layer) (l : list Layer) (q : number) :
  priority x = Ok q ->
  filter (has_priority p) (x :: l)
  = if decide (q = p) then x :: filter (has_priority p) l
    else filter (has_priority p) l.
Proof.
  intros Hx. rewrite filter_cons. unfold has_priority at 1.
  destruct (decide (priority x = Ok p)) as [H|H], (decide (q = p)) as [Hq|Hq];
    try done; congruence.
Qed.

(** Two sorted lists that hold the layers of each priority in the same
    order are the same list. *)
Lemma sorted_ties_unique (l1 l2 : list Layer) :
  Forall prioritised l1 -> Forall prioritised l2 ->
  StronglySorted not_after l1 -> StronglySorted not_after l2 ->
  (forall p, filter (has_priority p) l1 = filter (has_priority p) l2) ->
  l1 = l2.
Proof.
  intros H1. revert l2. induction H1 as [|x l1 [px Hx] H1 IH]; intros l2 H2 S1 S2 Hf.
  - destruct H2 as [|y l2 [py Hy] H2]; [done|].
    specialize (Hf py). rewrite (filter_priority_cons py y l2 py Hy) in Hf.
    by rewrite decide_True in Hf.
  - destruct H2 as [|y l2 [py Hy] H2].
    { specialize (Hf px). rewrite (filter_priority_cons px x l1 px Hx) in Hf.
      by rewrite decide_True in Hf. }
    apply StronglySorted_inv in S1 as [S1 A1].
    apply StronglySorted_inv in S2 as [S2 A2].
    rewrite Forall_forall in A1. rewrite Forall_forall in A2.
    assert (px = py) as Heq.
    { destruct (decide (px = py)) as [|Hne]; [done|].
      apply number_lt_total.
      - pose proof (Hf px) as Hp.
        rewrite (filter_priority_cons px x l1 px Hx), decide_True in Hp by done.
        rewrite (filter_priority_cons px y l2 py Hy), decide_False in Hp by done.
        assert (Hin : x ∈ l2).
        { eapply (proj1 (list_elem_of_filter (has_priority px) _ _)).
          rewrite <- Hp. by left. }
        by apply (A2 x Hin py px).
      - pose proof (Hf py) as Hp.
        rewrite (filter_priority_cons py x l1 px Hx), decide_False in Hp by done.
        rewrite (filter_priority_cons py y l2 py Hy), decide_True in Hp by done.
        assert (Hin : y ∈ l1).
        { eapply (proj1 (list_elem_of_filter (has_priority py) _ _)).
          rewrite Hp. by left. }
        by apply (A1 y Hin px py). }
    subst py.
    pose proof (Hf px) as Hp.
    rewrite (filter_priority_cons px x l1 px Hx), decide_True in Hp by done.
    rewrite (filter_priority_cons px y l2 px Hy), decide_True in Hp by done.
    injection Hp as -> Hp. f_equal. apply IH; try done.
    intros p. specialize (Hf p).
    rewrite (filter_priority_cons p y l1 px Hx) in Hf.
    rewrite (filter_priority_cons p y l2 px Hy) in Hf.
    destruct (decide (px = p)); [by injection Hf|done].
Qed.

(** [sort] returns the one list that a stable sort by priority can return:
    every arrangement of [l] that is sorted and keeps layers of equal
    priority in their order is the result of [sort]. *)
Lemma stable_sort_unique (l r : list Layer) :
  Forall prioritised l -> r ≡ₚ l -> StronglySorted not_after r ->
  (forall p, filter (has_priority p) r = filter (has_priority p) l) ->
  sort l = Ok r.
Proof.
  intros Hl Hperm Hsorted Hties.
  destruct (sort_spec l Hl) as (s & Hs & Hperm' & Hsorted' & Hties').
  rewrite Hs. f_equal. apply sorted_ties_unique; try done.
  - by rewrite Hperm'.
  - by rewrite Hperm.
  - intros p. by rewrite Hties', Hties.
Qed.

Lemma stable_sort_unique_witness :
  sort [labelled "a" "cut-2"; labelled "b" "cut-1"; labelled "c" "cut-2"]
  = Ok [labelled "b" "cut-1"; labelled "a" "cut-2"; labelled "c" "cut-2"].
Proof.
  assert (Ha : forall i, priority (labelled i "cut-2") = Ok (Int 2)) by done.
  assert (Hb : forall i, priority (labelled i "cut-1") = Ok (Int 1)) by done.
  apply stable_sort_unique.
  - repeat constructor; eexists; first [apply Ha | apply Hb].
  - apply perm_swap.
  - repeat constructor; intros p q Hp Hq;
      rewrite ?Ha, ?Hb in Hp, Hq; injection Hp as <-; injection Hq as <-; done.
  - intros p.
    rewrite !(filter_priority_cons p _ _ (Int 2) (Ha _)),
      !(filter_priority_cons p _ _ (Int 1) (Hb _)),
      !(filter_priority_cons p _ _ (Int 2) (Ha _)).
    destruct (decide (Int 2 = p)), (decide (Int 1 = p)); try done. congruence.
Defined.

(** ** The partition *)

Lemma foldl_route (ls e c i : list Layer) :
  foldl route (e, c, i) ls =
  (e ++ filter (has_role Engrave) ls, c ++ filter (has_role Cut) ls,
   i ++ filter (has_role Ignored) ls).
Proof.
  revert e c i. induction ls as [|x ls IH]; intros e c i.
  - simpl. by rewrite !app_nil_r.
  - cbn [foldl]. rewrite !filter_cons.
    destruct (decide (has_role Engrave x)) as [H1|H1],
      (decide (has_role Cut x)) as [H2|H2],
      (decide (has_role Ignored x)) as [H3|H3];
      unfold has_role in H1, H2, H3; unfold route at 2;
      destruct (role x) eqn:E; try congruence;
      rewrite IH; by rewrite <- ?app_assoc.
Qed.

Lemma filter_roles_Permutation (ls : list Layer) :
  filter (has_role Engrave) ls ++ filter (has_role Cut) ls
    ++ filter (has_role Ignored) ls ≡ₚ ls.
Proof.
  induction ls as [|x ls IH]; [done|].
  rewrite !filter_cons.
  destruct (decide (has_role Engrave x)) as [H1|H1],
    (decide (has_role Cut x)) as [H2|H2],
    (decide (has_role Ignored x)) as [H3|H3];
    unfold has_role in H1, H2, H3;
    destruct (role x) eqn:E; try congruence; simpl.
  - by rewrite IH.
  - rewrite <- Permutation_middle. by rewrite IH.
  - rewrite app_assoc, <- Permutation_middle, <- app_assoc. by rewrite IH.
Qed.

Lemma filter_role_prioritised (r : Role) (ls : list Layer) :
  r <> Ignored -> Forall prioritised (filter (has_role r) ls).
Proof.
  intros Hr. apply Forall_forall. intros x Hx.
  apply list_elem_of_filter in Hx as [Hx _].
  apply role_priority_Ok. unfold has_role in Hx. congruence.
Qed.

(** What [split_layers] returns: each bucket is the sort of the layers of
    its role, the ignored ones are left in document order. *)
Lemma split_layers_spec (layers : list InkscapeLayer) :
  exists e c,
    split_layers layers
      = Ok (e, c, filter (has_role Ignored) (Build_Layer <$> layers)) /\
    sort (filter (has_role Engrave) (Build_Layer <$> layers)) = Ok e /\
    sort (filter (has_role Cut) (Build_Layer <$> layers)) = Ok c.
Proof.
  unfold split_layers. rewrite foldl_route. simpl.
  destruct (sort_spec (filter (has_role Engrave) (Build_Layer <$> layers)))
    as (e & He & _); [by apply filter_role_prioritised|].
  destruct (sort_spec (filter (has_role Cut) (Build_Layer <$> layers)))
    as (c & Hc & _); [by apply filter_role_prioritised|].
  exists e, c. rewrite He. simpl. rewrite Hc. done.
Qed.

(** C2. [split_layers] returns, on every sequence of layers, three
    sequences whose lengths add up to that of the input and which together
    hold every input layer exactly once (they are a permutation of the
    input, and each holds the layers of one role only); on the empty input
    all three are empty. *)
Theorem split_layers_partition :
  (forall layers : list InkscapeLayer,
     exists e c i,
       split_layers layers = Ok (e, c, i) /\
       (length e + length c + length i = length layers)%nat /\
       e ++ c ++ i ≡ₚ Build_Layer <$> layers /\
       Forall (has_role Engrave) e /\ Forall (has_role Cut) c /\
       Forall (has_role Ignored) i) /\
  split_layers [] = Ok ([], [], []).
Proof.
  split; [|done]. intros layers.
  destruct (split_layers_spec layers) as (e & c & Hsplit & He & Hc).
  set (L := Build_Layer <$> layers) in *.
  destruct (sort_spec (filter (has_role Engrave) L))
    as (e' & He' & Hpe & _); [by apply filter_role_prioritised|].
  destruct (sort_spec (filter (has_role Cut) L))
    as (c' & Hc' & Hpc & _); [by apply filter_role_prioritised|].
  assert (e' = e) as -> by congruence. assert (c' = c) as -> by congruence.
  assert (Hperm : e ++ c ++ filter (has_role Ignored) L ≡ₚ L).
  { rewrite Hpe, Hpc. apply filter_roles_Permutation. }
  exists e, c, (filter (has_role Ignored) L). split; [done|].
  split; [|split; [done|]].
  - apply Permutation_length in Hperm. rewrite !length_app in Hperm.
    subst L. rewrite length_fmap in Hperm. lia.
  - split; [|split].
    + rewrite Hpe. apply Forall_forall. by intros x [? _]%list_elem_of_filter.
    + rewrite Hpc. apply Forall_forall. by intros x [? _]%list_elem_of_filter.
    + apply Forall_forall. by intros x [? _]%list_elem_of_filter.
Qed.

(** C3. In the engrave bucket and in the cut bucket that [split_layers]
    returns, every layer has a priority, a layer of lower priority stands
    before every layer of higher priority, and layers of equal priority
    keep the order they have in the input. *)
Theorem split_layers_sorted_stable (layers : list InkscapeLayer) :
  exists e c i,
    split_layers layers = Ok (e, c, i) /\
    Forall prioritised e /\ Forall prioritised c /\
    by_priority e /\ by_priority c /\
    ties_in_order (filter (has_role Engrave) (Build_Layer <$> layers)) e /\
    ties_in_order (filter (has_role Cut) (Build_Layer <$> layers)) c.
Proof.
  destruct (split_layers_spec layers) as (e & c & Hsplit & He & Hc).
  set (L := Build_Layer <$> layers) in *.
  destruct (sort_spec (filter (has_role Engrave) L))
    as (e' & He' & Hpe & Hse & Hte); [by apply filter_role_prioritised|].
  destruct (sort_spec (filter (has_role Cut) L))
    as (c' & Hc' & Hpc & Hsc & Htc); [by apply filter_role_prioritised|].
  assert (e' = e) as -> by congruence. assert (c' = c) as -> by congruence.
  exists e, c, (filter (has_role Ignored) L). split; [done|].
  split; [rewrite Hpe; by apply filter_role_prioritised|].
  split; [rewrite Hpc; by apply filter_role_prioritised|].
  split; [intros i j a b p q; by apply sorted_precedes|].
  split; [intros i j a b p q; by apply sorted_precedes|].
  done.
Qed.

(** ** The splitter *)

Lemma remove_node_app (l : InkscapeLayer) (pre post : Canvas) :
  l ∉ pre -> remove_node l (pre ++ l :: post) = pre ++ post.
Proof.
  induction pre as [|x pre IH]; intros Hl; simpl.
  - by rewrite decide_True.
  - apply not_elem_of_cons in Hl as [Hne Hl].
    rewrite decide_False by congruence. by rewrite IH.
Qed.

Lemma prune_only (k : str) (ls pre : Canvas) :
  Forall (fun l => ID l = k) pre -> prune k ls (pre ++ ls) = pre ++ only k ls.
Proof.
  unfold prune, only. revert pre. induction ls as [|x ls IH]; intros pre Hpre.
  - done.
  - cbn [foldl]. rewrite filter_cons.
    destruct (decide (ID x ≠ k)) as [Hne|Heq].
    + rewrite decide_False by done.
      rewrite remove_node_app; [by apply IH|].
      intros Hx. rewrite Forall_forall in Hpre. by apply Hpre in Hx.
    + assert (ID x = k) as Hk by (by destruct (decide (ID x = k))).
      rewrite decide_True by done.
      rewrite (cons_middle x pre ls), app_assoc. rewrite IH.
      * by rewrite <- app_assoc.
      * apply Forall_app. split; [done|]. by constructor.
Qed.

Section SplitterProperties.
Context {FS : Type} {ink : Pyinkscape FS}.

Lemma M_bind_run {A B} (m : M FS A) (f : A -> M FS B) (w : World FS) :
  (m ≫= f) w =
  match m w with
  | (w', Ok a) => f a w'
  | (w', Raise e) => (w', Raise e)
  end.
Proof. done. Qed.

Lemma M_ret_run {A} (a : A) (w : World FS) : (mret a : M FS A) w = (w, Ok a).
Proof. done. Qed.

Lemma delete_loop (k : str) (ls : list InkscapeLayer) (w : World FS)
    (h : list Canvas) (c : Canvas) :
  heap w = h ++ [c] ->
  for_each (fun l => if decide (ID l ≠ k) then delete (length h) l else mret ()) ls w
  = ({| fs := fs w; heap := h ++ [prune k ls c]; rendered := rendered w |}, Ok ()).
Proof.
  revert w c. induction ls as [|x ls IH]; intros w c Hw.
  - cbn [for_each]. rewrite M_ret_run. destruct w; simpl in *; by subst.
  - cbn [for_each]. rewrite M_bind_run.
    destruct (decide (ID x ≠ k)) as [Hne|Heq].
    + unfold delete at 1. cbn iota beta.
      rewrite (IH _ (remove_node x c)).
      * simpl. unfold prune. cbn [foldl]. by rewrite decide_True.
      * simpl. rewrite Hw. rewrite (alter_app_r_alt _ h [c]) by lia.
        by rewrite Nat.sub_diag.
    + rewrite M_ret_run. rewrite (IH w c Hw).
      unfold prune. cbn [foldl]. by rewrite decide_False.
Qed.

Lemma deref_run (canvas : nat) (w : World FS) (cv : Canvas) :
  heap w !! canvas = Some cv -> deref canvas w = (w, Ok cv).
Proof. intros H. unfold deref. by rewrite H. Qed.

Lemma copy_with_only_this_layer_run (canvas : nat) (layer : Layer)
    (w : World FS) (cv : Canvas) :
  heap w !! canvas = Some cv ->
  copy_with_only_this_layer canvas layer w
  = ({| fs := fs w; heap := heap w ++ [only (Layer_ID layer) cv];
        rendered := rendered w |}, Ok (length (heap w))).
Proof.
  intros Hc. unfold copy_with_only_this_layer, deepcopy, layers.
  rewrite !M_bind_run, (deref_run _ _ _ Hc). cbn iota beta.
  unfold new at 1. cbn iota beta.
  rewrite M_bind_run, (deref_run _ _ cv); cycle 1.
  { cbn [heap]. by rewrite lookup_app_r, Nat.sub_diag by lia. }
  cbn iota beta. rewrite M_bind_run.
  rewrite (delete_loop _ cv _ (heap w) cv) by done. cbn iota beta.
  cbn [fs heap rendered]. rewrite M_ret_run.
  by rewrite (prune_only _ cv []).
Qed.

Lemma split_one_run (canvas : nat) (dir : PurePath) (base : str) (ov : bool)
    (layer : Layer) (w : World FS) (cv : Canvas) :
  heap w !! canvas = Some cv ->
  split_one canvas dir base ov layer w
  = ({| fs := (render_file (output_path_of dir base layer) ov
                 (only (Layer_ID layer) cv) (fs w)).1;
        heap := heap w ++ [only (Layer_ID layer) cv];
        rendered := rendered w
          ++ [(output_path_of dir base layer, only (Layer_ID layer) cv)] |},
     (render_file (output_path_of dir base layer) ov
        (only (Layer_ID layer) cv) (fs w)).2).
Proof.
  intros Hc. unfold split_one.
  rewrite M_bind_run, (copy_with_only_this_layer_run _ _ _ _ Hc). cbn iota beta.
  unfold render. cbn [heap fs rendered].
  rewrite lookup_app_r, Nat.sub_diag by lia. cbn [lookup list_lookup].
  by destruct (render_file _ _ _ _).
Qed.

Lemma for_each_app {A} (f : A -> M FS unit) (l1 l2 : list A) (w : World FS) :
  for_each f (l1 ++ l2) w = (for_each f l1;; for_each f l2) w.
Proof.
  revert w. induction l1 as [|x l1 IH]; intros w.
  - simpl. by rewrite M_bind_run, M_ret_run.
  - cbn [app for_each]. rewrite !M_bind_run.
    destruct (f x w) as [w1 [[]|e]]; [|done].
    by rewrite IH, M_bind_run.
Qed.

Lemma for_each_split_one (canvas : nat) (dir : PurePath) (base : str) (ov : bool)
    (cv : Canvas) (ls : list Layer) (w : World FS) :
  heap w !! canvas = Some cv ->
  heap (for_each (split_one canvas dir base ov) ls w).1 !! canvas = Some cv /\
  carried_out ov (plan dir base cv ls) (rendered w)
    (rendered (for_each (split_one canvas dir base ov) ls w).1)
    (for_each (split_one canvas dir base ov) ls w).2.
Proof.
  revert w. induction ls as [|x ls IH]; intros w Hc.
  - cbn [for_each]. rewrite M_ret_run. split; [done|].
    exists 0%nat. simpl. by rewrite app_nil_r.
  - cbn [for_each]. rewrite M_bind_run, (split_one_run _ _ _ _ _ _ _ Hc).
    set (p := output_path_of dir base x). set (doc := only (Layer_ID x) cv).
    destruct (render_file p ov doc (fs w)) as [fs1 [[]|err]] eqn:Hr; cbn [fst snd].
    + match goal with |- context [for_each _ ls ?w1] => destruct (IH w1) as [Hh Hrun] end.
      { cbn [heap]. by apply lookup_app_l_Some. }
      split; [done|]. cbn [rendered] in Hrun. destruct Hrun as (n & Hafter & Hn).
      exists (S n). split.
      * rewrite Hafter. cbn [plan fmap list_fmap take]. by rewrite <- app_assoc.
      * destruct (for_each _ ls _).2 as [[]|err].
        -- simpl. by rewrite Hn.
        -- destruct Hn as (Hn & q & d & files & Hq & Hfail). split; [simpl; lia|].
           exists q, d, files. split; [|done].
           replace (S n - 1)%nat with (S (n - 1)) by lia. done.
    + split; [cbn [heap]; by apply lookup_app_l_Some|].
      exists 1%nat. split; [done|]. split; [simpl; lia|].
      exists p, doc, (fs w). split; [done|]. by rewrite Hr.
Qed.

(** A run of [split] on a document that loads: the document becomes a new
    object, and the loop body runs on the engrave layers and then on the
    cut layers. *)
Lemma split_run (path : PurePath) (ov : bool) (w : World FS) (cv : Canvas)
    (e c i : list Layer) :
  load path (fs w) = Ok cv -> split_layers cv = Ok (e, c, i) ->
  split path ov None w
  = for_each (split_one (length (heap w)) (parent path) (stem path) ov) (e ++ c)
      {| fs := fs w; heap := heap w ++ [cv]; rendered := rendered w |}.
Proof.
  intros Hload Hsplit. unfold split, Canvas_open.
  rewrite M_bind_run. rewrite M_bind_run. unfold lift at 1. rewrite Hload.
  cbn iota beta. unfold new at 1. cbn iota beta.
  unfold layers. rewrite M_bind_run, (deref_run _ _ cv); cycle 1.
  { cbn [heap]. by rewrite lookup_app_r, Nat.sub_diag by lia. }
  cbn iota beta. rewrite M_bind_run. unfold lift at 1. rewrite Hsplit.
  cbn iota beta. by rewrite for_each_app.
Qed.

(** A run of [split] on a document that does not load raises at once. *)
Lemma split_no_document (path : PurePath) (ov : bool) (w : World FS) (err : exn) :
  load path (fs w) = Raise err -> split path ov None w = (w, Raise err).
Proof.
  intros Hload. unfold split, Canvas_open.
  rewrite M_bind_run. rewrite M_bind_run. unfold lift at 1. by rewrite Hload.
Qed.
End SplitterProperties.

(** *** Paths *)

Lemma split_on_no_separator (c : ascii) (s : str) : c ∉ s -> split_on c s = [s].
Proof.
  induction s as [|a s IH]; intros Hc; [done|].
  apply not_elem_of_cons in Hc as [Hne Hc]. cbn [split_on].
  rewrite decide_False by congruence. by rewrite IH.
Qed.

Lemma components_one (s : str) :
  "/"%char ∉ s -> (1 < length s)%nat -> components s = [s].
Proof.
  intros Hs Hlen. unfold components. rewrite split_on_no_separator by done.
  rewrite filter_cons, decide_True; [done|].
  split; intros ->; simpl in Hlen; lia.
Qed.

(** Membership in a given string, refuted. *)
Ltac not_in_literal H :=
  simpl in H;
  repeat (apply elem_of_cons in H as [H|H]; [discriminate H|]);
  by apply elem_of_nil in H.

Lemma separator_free_name (base lbl : str) :
  "/"%char ∉ base -> "/"%char ∉ lbl -> "/"%char ∉ base ++ "-" ++ lbl ++ ".svg".
Proof.
  intros Hb Hl. rewrite !elem_of_app. intros [?|[Hd|[?|Hsvg]]]; try done.
  - not_in_literal Hd.
  - not_in_literal Hsvg.
Qed.


(** *** The documents handed to [render] *)





(** *** Failures of [render] *)




(** *** One file per layer *)



(** What the run on [art/sign.SVG] does: both layers are cut layers, both
    are written to [art/sign-cut.svg], and the run leaves two files, the
    source and the one output. *)
Example sign_run_files :
  split_layers sign_doc = Ok ([], [Build_Layer inner; Build_Layer outer], []) /\
  suffix sign_SVG = ".SVG" /\
  (split (ink := files_pyinkscape) sign_SVG true None sign_run).2 = Ok () /\
  (rendered (split (ink := files_pyinkscape) sign_SVG true None sign_run).1).*1
  = [sign_cut_svg; sign_cut_svg] /\
  size (fs (split (ink := files_pyinkscape) sign_SVG true None sign_run).1) = 2%nat.
Proof. repeat split; vm_compute; reflexivity. Qed.


(** ** The g-code driver *)

Section EmissionProperties.
Context {FS : Type} {lib : SvgToGcode FS}.

Lemma set_laser_power_inside (power : Q) :
  (0 <= power)%Q -> (power <= 1)%Q ->
  patched_set_laser_power power
  = Ok ("M3 S" ++ pretty (Qfloor (linear_map 0 255 power)) ++ ";").
Proof.
  intros H0 H1. unfold patched_set_laser_power.
  apply Qle_bool_iff in H0. apply Qle_bool_iff in H1. by rewrite H0, H1.
Qed.

Lemma set_laser_power_outside (power : Q) :
  (power < 0)%Q \/ (1 < power)%Q ->
  patched_set_laser_power power = Raise (ValueError (OutOfBounds power)).
Proof.
  intros H. unfold patched_set_laser_power.
  destruct (Qle_bool 0 power) eqn:H0, (Qle_bool power 1) eqn:H1; try done.
  apply Qle_bool_iff in H0. apply Qle_bool_iff in H1.
  destruct H as [H|H]; apply Qlt_not_le in H; contradiction.
Qed.

(** C8. Setting the laser power raises exactly when the power is outside
    [0,1]: for a power between 0 and 1 it returns an instruction, for a
    power below 0 or above 1 it raises the out-of-bounds [ValueError] and
    returns nothing. *)
Theorem set_laser_power_range (power : Q) :
  ((0 <= power)%Q /\ (power <= 1)%Q -> exists s, patched_set_laser_power power = Ok s) /\
  ((power < 0)%Q \/ (1 < power)%Q ->
   patched_set_laser_power power = Raise (ValueError (OutOfBounds power))) /\
  ((exists e, patched_set_laser_power power = Raise e) <->
   (power < 0)%Q \/ (1 < power)%Q).
Proof.
  split; [|split; [|split]].
  - intros [H0 H1]. rewrite set_laser_power_inside by done. eauto.
  - apply set_laser_power_outside.
  - intros [e He].
    destruct (Qlt_le_dec power 0) as [|H0]; [by left|].
    destruct (Qlt_le_dec 1 power) as [|H1]; [by right|].
    by rewrite set_laser_power_inside in He.
  - intros H. rewrite set_laser_power_outside by done. eauto.
Qed.

Lemma G_bind_run {A B} (m : G Gcode A) (f : A -> G Gcode B) (c : Compiler Gcode) :
  (m ≫= f) c =
  match m c with
  | (c', Ok a) => f a c'
  | (c', Raise e) => (c', Raise e)
  end.
Proof. done. Qed.

(** On a chain that is not empty, met by a compiler whose interface has
    no position yet, [patched_append_line_chain] raises as
    [patched_set_laser_power] does, and leaves the body as it is. *)
Lemma append_line_chain_power_error (line_chain : list (Line Vector)) (power : Q)
    (c : Compiler Gcode) (err : exn) :
  line_chain <> [] -> position (interface c) = None ->
  patched_set_laser_power power = Raise err ->
  exists c', patched_append_line_chain line_chain power c = (c', Raise err) /\
    body c' = body c.
Proof.
  intros Hne Hpos Hpow. destruct line_chain as [|first chain]; [done|].
  unfold patched_append_line_chain.
  rewrite G_bind_run. unfold get at 1. cbn iota beta. rewrite Hpos.
  rewrite G_bind_run.
  rewrite G_bind_run. unfold call at 1. destruct (laser_off _) as [i1 c1]. cbn iota beta.
  rewrite G_bind_run. unfold get at 1. cbn iota beta.
  rewrite G_bind_run. unfold call at 1. cbn [interface movement_speed].
  destruct (set_movement_speed _ _) as [i2 c2]. cbn iota beta.
  rewrite G_bind_run. unfold call at 1. cbn [interface].
  destruct (linear_move _ _) as [i3 c3]. cbn iota beta.
  rewrite G_bind_run. unfold get at 1. cbn iota beta.
  rewrite G_bind_run. unfold call at 1. cbn [interface cutting_speed].
  destruct (set_movement_speed _ _) as [i4 c4]. cbn iota beta.
  rewrite G_bind_run. rewrite Hpow. cbn iota beta.
  eexists. split; reflexivity.
Qed.

(** On an empty chain [patched_append_line_chain] raises [NameError]: the
    name [warnings] is not bound in the module. *)
Lemma append_line_chain_empty (power : Q) (c : Compiler Gcode) :
  patched_append_line_chain [] power c = (c, Raise (NameError "warnings")).
Proof. done. Qed.

(** [to_gcode] on a drawing whose first curve has a chain that is not
    empty: the power 5 is refused, and no file is written. *)
Lemma to_gcode_power_error (path : PurePath) (files : FS) (curve : Curve)
    (rest : list Curve) :
  parse_file path files = Ok (curve :: rest) ->
  line_segment_approximation curve <> [] ->
  position (interface (Compiler_init 1000 300 0)) = None ->
  to_gcode path files = (files, Raise (ValueError (OutOfBounds 5))).
Proof.
  intros Hparse Hchain Hpos. unfold to_gcode. rewrite Hparse.
  cbn [patched_append_curves]. rewrite G_bind_run.
  destruct (append_line_chain_power_error (line_segment_approximation curve) 5
              (Compiler_init 1000 300 0) (ValueError (OutOfBounds 5)))
    as (c' & Herr & _); [done | done | |].
  { apply set_laser_power_outside. by right. }
  by rewrite Herr.
Qed.


End EmissionProperties.


Lemma to_gcode_power_error_witness :
  to_gcode (lib := toy_library) drawing_svg ([[stroke]], [])
  = (([[stroke]], []), Raise (ValueError (OutOfBounds 5))).
Proof.
  apply (to_gcode_power_error (lib := toy_library) drawing_svg
           ([[stroke]], []) [stroke] []); [reflexivity | discriminate | reflexivity].
Defined.


(** ** More on the fields of a label *)


Lemma fields_laser_power (s : str) :
  fields s !! "laser_power"
  = (parse_field "s" (parse_field "f" (parse_field "x" (parse_field "-" s).2).2).2).1.
Proof.
  unfold fields, record_group.
  repeat match goal with |- context [match ?o with _ => _ end] => destruct o end;
    by simplify_map_eq.
Qed.



(** Whatever [search] finds on a label is the fields of some text: that
    which follows the leftmost role word. *)
Lemma search_inv (s : str) (m : Match) :
  search label_regex s = Some m ->
  exists pre p rest, s = pre ++ p ++ rest /\ is_role_prefix p /\ m = fields rest.
Proof.
  induction s as [|a s IH]; cbn [search].
  - rewrite rmatch_label_regex_None by done. done.
  - destruct (startswith (a :: s) "engrave") eqn:Ee.
    { apply startswith_spec in Ee as [r Hr]. rewrite Hr.
      rewrite rmatch_label_regex by (by left). intros [= <-].
      exists [], "engrave", r. split; [done|]. split; [by left | done]. }
    destruct (startswith (a :: s) "cut") eqn:Ec.
    { apply startswith_spec in Ec as [r Hr]. rewrite Hr.
      rewrite rmatch_label_regex by (by right). intros [= <-].
      exists [], "cut", r. split; [done|]. split; [by right | done]. }
    rewrite rmatch_label_regex_None by done.
    intros (pre & p & rest & -> & Hp & ->)%IH.
    by exists (a :: pre), p, rest.
Qed.

Lemma digits_of_digits (s : str) : Forall (fun d => is_digit d = true) (digits_of s).
Proof.
  induction s as [|c s IH]; simpl; [done|].
  destruct (is_digit c) eqn:E; [by constructor | done].
Qed.

(** The text of a group that took part: the letter and at least one
    digit, and digits only. *)
Lemma parse_field_group (c : ascii) (s t : str) :
  (parse_field c s).1 = Some t ->
  exists ds, t = c :: ds /\ ds <> [] /\ Forall (fun d => is_digit d = true) ds.
Proof.
  destruct s as [|a [|d s]]; simpl; try done.
  destruct (decide (a = c)) as [->|]; [|done].
  destruct (is_digit d) eqn:Hd; [|done]. simpl. intros [= <-].
  exists (d :: digits_of s). split; [done|]. split; [done|].
  constructor; [done | apply digits_of_digits].
Qed.

Lemma digit_value_nonneg (d : ascii) : is_digit d = true -> 0 <= digit_value d <= 9.
Proof.
  unfold is_digit, digit_value. intros H.
  apply andb_true_iff in H as [H1 H2].
  apply Nat.leb_le in H1. apply Nat.leb_le in H2. lia.
Qed.

Lemma int_nonneg (ds : str) : Forall (fun d => is_digit d = true) ds -> 0 <= int ds.
Proof.
  intros Hds. unfold int.
  assert (H : forall acc, 0 <= acc ->
            0 <= foldl (fun n c => 10 * n + digit_value c) acc ds).
  { induction Hds as [|d ds Hd _ IH]; intros acc Hacc; simpl; [done|].
    apply IH. pose proof (digit_value_nonneg d Hd). lia. }
  by apply H.
Qed.

(** A priority or a number of passes read off a label is never negative,
    on any label; nothing makes the number of passes positive: [x0] gives
    no pass at all. *)
Theorem parsed_numbers_nonnegative :
  (forall (layer : Layer) (n : Z), priority layer = Ok (Int n) -> 0 <= n) /\
  (forall (layer : Layer) (n : Z), passes layer = Ok n -> 0 <= n) /\
  (forall i, passes (labelled i "cutx0") = Ok 0) /\
  (forall i, priority (labelled i "engrave-0") = Ok (Int 0)).
Proof.
  split; [|split; [|by split]].
  - intros layer n. unfold priority, _parse_priority.
    destruct (search label_regex _) as [m|] eqn:Hs; [|done].
    apply search_inv in Hs as (pre & p & rest & _ & _ & ->). simpl.
    rewrite fields_priority.
    destruct (parse_field "-" rest).1 as [t|] eqn:Ht; [|done].
    apply parse_field_group in Ht as (ds & -> & _ & Hds).
    intros [= <-]. by apply int_nonneg.
  - intros layer n. unfold passes, _parse_passes.
    destruct (search label_regex _) as [m|] eqn:Hs; [|done].
    apply search_inv in Hs as (pre & p & rest & _ & _ & ->). simpl.
    rewrite fields_passes.
    destruct (parse_field "x" _).1 as [t|] eqn:Ht; simpl.
    + apply parse_field_group in Ht as (ds & -> & _ & Hds).
      intros [= <-]. by apply int_nonneg.
    + intros [= <-]. lia.
Qed.

Lemma laser_power_le_1 (n : Z) : (inject_Z n / 1000 <= 1)%Q <-> n <= 1000.
Proof. unfold Qle, Qdiv, Qmult, Qinv, inject_Z. simpl. lia. Qed.

Lemma laser_power_ge_0 (n : Z) : 0 <= n -> (0 <= inject_Z n / 1000)%Q.
Proof. unfold Qle, Qdiv, Qmult, Qinv, inject_Z. simpl. lia. Qed.

(** Nothing ties the power read off a label to the range the power setter
    takes: a parsed power is the quotient of an integer that is not
    negative by 1000, and [patched_set_laser_power] takes it exactly when
    the integer is at most 1000. *)
Theorem laser_power_accepted {FS} {lib : SvgToGcode FS} (layer : Layer) (q : Q) :
  _parse_laser_power layer = Ok q ->
  exists n : Z,
    0 <= n /\ q = (inject_Z n / 1000)%Q /\
    ((exists s, patched_set_laser_power q = Ok s) <-> n <= 1000).
Proof.
  unfold _parse_laser_power.
  destruct (search label_regex _) as [m|] eqn:Hs; [|done].
  apply search_inv in Hs as (pre & p & rest & _ & _ & ->). simpl.
  rewrite fields_laser_power.
  destruct (parse_field "s" _).1 as [t|] eqn:Ht; [|done].
  apply parse_field_group in Ht as (ds & -> & _ & Hds). simpl. rewrite drop_0.
  intros [= <-]. exists (int ds).
  pose proof (int_nonneg ds Hds) as Hn.
  split; [done|]. split; [done|]. split.
  - intros [s Hs].
    destruct (Z_le_gt_dec (int ds) 1000) as [|Hgt]; [done|].
    rewrite set_laser_power_outside in Hs; [done|].
    right. apply Qnot_le_lt. rewrite laser_power_le_1. lia.
  - intros Hle. rewrite set_laser_power_inside; [eauto| |].
    + by apply laser_power_ge_0.
    + by apply laser_power_le_1.
Qed.

Lemma laser_power_accepted_witness :
  exists n : Z,
    0 <= n /\ (2000 / 1000)%Q = (inject_Z n / 1000)%Q /\
    ((exists s, patched_set_laser_power (lib := toy_library) (2000 / 1000) = Ok s)
     <-> n <= 1000).
Proof.
  apply (laser_power_accepted (lib := toy_library) (labelled [] "cuts2000")).
  reflexivity.
Defined.

(** ** More on the classifier and the order *)

(** No label makes a layer both a cut layer and an engrave layer, so the
    order of the two tests in [split_layers] does not matter. *)
Theorem roles_exclusive (layer : Layer) :
  (is_cut_layer layer && is_engrave_layer layer = false) /\
  role layer = (if is_engrave_layer layer then Engrave
                else if is_cut_layer layer then Cut else Ignored).
Proof.
  assert (H : is_cut_layer layer = true -> is_engrave_layer layer = false).
  { unfold is_cut_layer, is_engrave_layer. intros [r Hr]%startswith_spec.
    by rewrite Hr. }
  unfold role. destruct (is_cut_layer layer); [|by destruct (is_engrave_layer layer)].
  by rewrite H.
Qed.

Lemma number_lt_trans (p q r : number) :
  number_lt p q = true -> number_lt q r = true -> number_lt p r = true.
Proof.
  destruct p, q, r; simpl; try done.
  rewrite !Z.ltb_lt. lia.
Qed.

Lemma not_prioritised (layer : Layer) :
  ~ prioritised layer <-> priority layer = Raise AttributeError.
Proof.
  split.
  - intros H. destruct (priority layer) as [p|e] eqn:Hp.
    + destruct H. by exists p.
    + by apply priority_Raise in Hp as ->.
  - intros H [p Hp]. congruence.
Qed.

(** What [a < b] gives on any two layers: the comparison of the
    priorities when both have one, [AttributeError] when one of them has
    none, and [TypeError] when neither has. *)
Theorem lt_outcome (a b : Layer) :
  (forall p q, priority a = Ok p -> priority b = Ok q -> lt a b = Ok (number_lt p q)) /\
  (prioritised a -> ~ prioritised b -> lt a b = Raise AttributeError) /\
  (~ prioritised a -> prioritised b -> lt a b = Raise AttributeError) /\
  (~ prioritised a -> ~ prioritised b -> lt a b = Raise TypeError).
Proof.
  split; [apply lt_prioritised|].
  unfold lt, __lt__, _is_valid_operand.
  split; [|split].
  - intros [p Hp] Hb%not_prioritised. by rewrite Hb, Hp.
  - intros Ha%not_prioritised [q Hq]. by rewrite Hq, Ha.
  - intros Ha%not_prioritised Hb%not_prioritised. by rewrite Hb, Ha.
Qed.

(** On layers that have a priority, [<] is a strict weak order: no layer
    is below itself, two layers are never below each other, and both
    being below and being neither below nor above carry over. *)
Theorem lt_strict_weak_order :
  (forall a, prioritised a -> lt a a = Ok false) /\
  (forall a b, lt a b = Ok true -> lt b a = Ok false) /\
  (forall a b c, lt a b = Ok true -> lt b c = Ok true -> lt a c = Ok true) /\
  (forall a b c,
     lt a b = Ok false -> lt b a = Ok false ->
     lt b c = Ok false -> lt c b = Ok false ->
     lt a c = Ok false /\ lt c a = Ok false).
Proof.
  assert (Hinv : forall a b x, lt a b = Ok x ->
            exists p q, priority a = Ok p /\ priority b = Ok q /\ x = number_lt p q).
  { intros a b x H.
    destruct (priority a) as [p|ea] eqn:Ha, (priority b) as [q|eb] eqn:Hb.
    - rewrite (lt_prioritised a b p q Ha Hb) in H. injection H as <-. eauto.
    - unfold lt, __lt__, _is_valid_operand in H. rewrite Hb, Ha in H.
      apply priority_Raise in Hb as ->. done.
    - unfold lt, __lt__, _is_valid_operand in H. rewrite Hb, Ha in H. done.
    - unfold lt, __lt__, _is_valid_operand in H. rewrite Hb, Ha in H.
      apply priority_Raise in Hb as ->. apply priority_Raise in Ha as ->. done. }
  split; [|split; [|split]].
  - intros a [p Hp]. rewrite (lt_prioritised a a p p Hp Hp).
    by rewrite number_lt_irrefl.
  - intros a b (p & q & Hp & Hq & Hlt)%Hinv.
    rewrite (lt_prioritised b a q p Hq Hp). f_equal. by apply number_lt_asym.
  - intros a b c (p & q & Hp & Hq & Hpq)%Hinv (q' & r & Hq' & Hr & Hqr)%Hinv.
    assert (q' = q) as -> by congruence.
    rewrite (lt_prioritised a c p r Hp Hr). f_equal.
    by eapply number_lt_trans.
  - intros a b c (p & q & Hp & Hq & Hpq)%Hinv (q1 & p1 & Hq1 & Hp1 & Hqp)%Hinv
      (q2 & r & Hq2 & Hr & Hqr)%Hinv (r1 & q3 & Hr1 & Hq3 & Hrq)%Hinv.
    assert (q1 = q) as -> by congruence. assert (p1 = p) as -> by congruence.
    assert (q2 = q) as -> by congruence. assert (r1 = r) as -> by congruence.
    assert (q3 = q) as -> by congruence.
    assert (p = q) as -> by (by apply number_lt_total).
    assert (q = r) as -> by (by apply number_lt_total).
    rewrite (lt_prioritised a c r r Hp Hr), (lt_prioritised c a r r Hr Hp).
    by rewrite number_lt_irrefl.
Qed.

(** ** More on the partition *)

Lemma filter_all {A} (P : A -> Prop) `{forall x, Decision (P x)} (l : list A) :
  Forall P l -> filter P l = l.
Proof.
  induction 1 as [|x l Hx _ IH]; [done|].
  by rewrite filter_cons, decide_True, IH.
Qed.

Lemma filter_nothing {A} (P : A -> Prop) `{forall x, Decision (P x)} (l : list A) :
  Forall (fun x => ~ P x) l -> filter P l = [].
Proof.
  induction 1 as [|x l Hx _ IH]; [done|].
  by rewrite filter_cons, decide_False, IH.
Qed.

(** A sorted list is left as it is. *)
Lemma sort_sorted (l : list Layer) :
  Forall prioritised l -> StronglySorted not_after l -> sort l = Ok l.
Proof.
  intros Hl Hs. destruct (sort_spec l Hl) as (s & Hsort & Hperm & Hsorted & Hties).
  rewrite Hsort. f_equal. apply sorted_ties_unique; try done. by rewrite Hperm.
Qed.

Lemma Layer_eta (ls : list Layer) : Build_Layer <$> (_inkscape_layer <$> ls) = ls.
Proof. induction ls as [|[x] ls IH]; [done|]. rewrite !fmap_cons. by rewrite IH. Qed.

(** What [split_layers] returns, in full: the buckets hold the layers of
    their role, and the engrave and cut buckets are sorted with ties in
    input order. *)
Lemma split_layers_full (layers : list InkscapeLayer) (e c i : list Layer) :
  split_layers layers = Ok (e, c, i) ->
  Forall (has_role Engrave) e /\ Forall (has_role Cut) c /\ Forall (has_role Ignored) i /\
  Forall prioritised e /\ Forall prioritised c /\
  StronglySorted not_after e /\ StronglySorted not_after c /\
  ties_in_order (filter (has_role Engrave) (Build_Layer <$> layers)) e /\
  ties_in_order (filter (has_role Cut) (Build_Layer <$> layers)) c /\
  i = filter (has_role Ignored) (Build_Layer <$> layers).
Proof.
  intros H. destruct (split_layers_spec layers) as (e' & c' & Hsplit & He & Hc).
  rewrite Hsplit in H. injection H as -> -> <-.
  set (L := Build_Layer <$> layers) in *.
  destruct (sort_spec (filter (has_role Engrave) L))
    as (e' & He' & Hpe & Hse & Hte); [by apply filter_role_prioritised|].
  destruct (sort_spec (filter (has_role Cut) L))
    as (c' & Hc' & Hpc & Hsc & Htc); [by apply filter_role_prioritised|].
  assert (e' = e) as -> by congruence. assert (c' = c) as -> by congruence.
  repeat split; try done.
  - rewrite Hpe. apply Forall_forall. by intros x [? _]%list_elem_of_filter.
  - rewrite Hpc. apply Forall_forall. by intros x [? _]%list_elem_of_filter.
  - apply Forall_forall. by intros x [? _]%list_elem_of_filter.
  - rewrite Hpe. by apply filter_role_prioritised.
  - rewrite Hpc. by apply filter_role_prioritised.
Qed.

Lemma has_role_other (r r' : Role) (ls : list Layer) :
  r <> r' -> Forall (has_role r) ls -> Forall (fun l => ~ has_role r' l) ls.
Proof.
  intros Hne H. eapply Forall_impl; [exact H|]. unfold has_role. congruence.
Qed.

(** Partitioning is idempotent: the layers of the three buckets, put one
    after the other and partitioned again, give the same three buckets. *)
Theorem split_layers_idempotent (layers : list InkscapeLayer) (e c i : list Layer) :
  split_layers layers = Ok (e, c, i) ->
  split_layers (_inkscape_layer <$> (e ++ c ++ i)) = Ok (e, c, i).
Proof.
  intros (He & Hc & Hi & Hpe & Hpc & Hse & Hsc & _)%split_layers_full.
  unfold split_layers. rewrite Layer_eta, foldl_route. simpl.
  rewrite !filter_app.
  rewrite (filter_all (has_role Engrave) e), (filter_all (has_role Cut) c),
    (filter_all (has_role Ignored) i) by done.
  rewrite (filter_nothing (has_role Engrave) c), (filter_nothing (has_role Engrave) i),
    (filter_nothing (has_role Cut) e), (filter_nothing (has_role Cut) i),
    (filter_nothing (has_role Ignored) e), (filter_nothing (has_role Ignored) c)
    by (eapply has_role_other; [|done]; done).
  rewrite !app_nil_r. simpl.
  by rewrite (sort_sorted e), (sort_sorted c).
Qed.

Lemma split_layers_idempotent_witness :
  split_layers (_inkscape_layer <$>
                  ([Build_Layer logo] ++ [Build_Layer outline] ++ [Build_Layer guide]))
  = Ok ([Build_Layer logo], [Build_Layer outline], [Build_Layer guide]).
Proof. apply (split_layers_idempotent plan_doc). vm_compute. reflexivity. Defined.



(** ** More on the splitter *)

Section MoreSplitterProperties.
Context {FS : Type} {ink : Pyinkscape FS}.






End MoreSplitterProperties.



(** *** The source is not written to *)

Lemma rfind_Some (c : ascii) (s : str) (i : nat) :
  rfind c s = Some i -> s !! i = Some c.
Proof.
  revert i. induction s as [|a s IH]; intros i; simpl; [done|].
  destruct (rfind c s) as [j|].
  - intros [= <-]. by apply IH.
  - destruct (decide (a = c)) as [->|]; [|done]. by intros [= <-].
Qed.

(** A name is its stem, or its stem and a suffix that starts with a dot. *)
Lemma stem_of_name (p : PurePath) :
  stem p = name p \/ exists sfx, name p = stem p ++ "."%char :: sfx.
Proof.
  unfold stem. destruct (rfind "." (name p)) as [i|] eqn:Hi; [|by left].
  destruct ((0 <? i) && (i <? length (name p) - 1))%nat; [|by left].
  right. exists (drop (S i) (name p)).
  apply rfind_Some in Hi.
  rewrite <- (take_drop_middle _ _ _ Hi) at 1. done.
Qed.

Lemma split_on_cons_inv (c : ascii) (s : str) : split_on c s <> [].
Proof.
  destruct s as [|a s]; simpl; [done|].
  destruct (decide (a = c)); [done|]. by destruct (split_on c s).
Qed.

Lemma split_on_at_separator (c : ascii) (a b : str) :
  c ∉ a -> split_on c (a ++ c :: b) = a :: split_on c b.
Proof.
  induction a as [|x a IH]; intros Hc; simpl.
  - by rewrite decide_True.
  - apply not_elem_of_cons in Hc as [Hne Hc].
    rewrite decide_False by congruence. by rewrite IH.
Qed.

(** A text that ends in [.svg] has a component that is not dropped. *)
Lemma split_on_svg (u : str) :
  exists w, w ∈ split_on "/" (u ++ ".svg") /\ (4 <= length w)%nat.
Proof.
  induction u as [|a u (w & Hw & Hlen)].
  - exists ".svg". split; [|simpl; lia]. simpl. by left.
  - change ((a :: u) ++ ".svg") with (a :: (u ++ ".svg")). cbn [split_on].
    destruct (decide (a = "/"%char)).
    + exists w. split; [by right | done].
    + destruct (split_on "/" (u ++ ".svg")) as [|w0 ws]; [by apply elem_of_nil in Hw|].
      apply elem_of_cons in Hw as [->|Hw].
      * exists (a :: w0). split; [by left | simpl; lia].
      * exists w. split; [by right | done].
Qed.

Lemma components_svg (u : str) : components (u ++ ".svg") <> [].
Proof.
  destruct (split_on_svg u) as (w & Hw & Hlen).
  assert (Hin : w ∈ components (u ++ ".svg")).
  { unfold components. apply list_elem_of_filter. split; [|done].
    split; intros ->; simpl in Hlen; lia. }
  intros Hnil. rewrite Hnil in Hin. by apply elem_of_nil in Hin.
Qed.

Lemma first_separator (c : ascii) (s : str) :
  c ∈ s -> exists a b, s = a ++ c :: b /\ c ∉ a.
Proof.
  induction s as [|x s IH]; intros Hc; [by apply elem_of_nil in Hc|].
  destruct (decide (x = c)) as [->|Hne].
  - exists [], s. split; [done | apply not_elem_of_nil].
  - apply elem_of_cons in Hc as [->|Hc]; [done|].
    destruct (IH Hc) as (a & b & -> & Ha). exists (x :: a), b.
    split; [done|]. apply not_elem_of_cons. split; [congruence | done].
Qed.

(** The components of the name [split] gives a layer's file, when the
    stem has no [/]: the name itself when the label has none either, and
    otherwise at least two. *)
Lemma components_of_output (base lbl : str) :
  "/"%char ∉ base ->
  components (base ++ "-" ++ lbl ++ ".svg") = [base ++ "-" ++ lbl ++ ".svg"] \/
  (2 <= length (components (base ++ "-" ++ lbl ++ ".svg")))%nat.
Proof.
  intros Hb. destruct (decide ("/"%char ∈ lbl)) as [Hin|Hout].
  - right. destruct (first_separator _ _ Hin) as (a & b & -> & Ha).
    assert (Heq : base ++ "-" ++ (a ++ "/"%char :: b) ++ ".svg"
                  = (base ++ "-" ++ a) ++ "/"%char :: (b ++ ".svg"))
      by (by rewrite <- !app_assoc).
    rewrite Heq. unfold components. rewrite split_on_at_separator.
    + rewrite filter_cons, decide_True.
      * pose proof (components_svg b) as Hne. unfold components in Hne.
        destruct (filter _ (split_on "/" (b ++ ".svg"))); [done | simpl; lia].
      * split.
        -- intros H. apply (f_equal length) in H. rewrite !length_app in H.
           simpl in H. lia.
        -- intros H.
           assert (base = [] /\ a = []) as [-> ->]; [|done].
           apply (f_equal length) in H. rewrite !length_app in H. simpl in H.
           split; apply nil_length_inv; lia.
    + rewrite !elem_of_app. intros [?|[Hd|?]]; try done. not_in_literal Hd.
  - left. apply components_one; [by apply separator_free_name|].
    simpl. rewrite !length_app. simpl. rewrite !length_app. simpl. lia.
Qed.

(** The parts of the path of a layer's file are not those of the path of
    the source. *)
Lemma output_parts_differ (rt : str) (ps : list str) (lbl : str) :
  "/"%char ∉ name {| root := rt; parts := ps |} ->
  removelast ps ++ components (stem {| root := rt; parts := ps |} ++ "-" ++ lbl ++ ".svg")
  <> ps.
Proof.
  intros Hname Heq.
  assert (Hstem : "/"%char ∉ stem {| root := rt; parts := ps |}).
  { destruct (stem_of_name {| root := rt; parts := ps |}) as [->|(sfx & Hn)]; [done|].
    rewrite Hn in Hname. intros H. apply Hname. apply elem_of_app. by left. }
  destruct (components_of_output (stem {| root := rt; parts := ps |}) lbl Hstem)
    as [Hone|Htwo].
  - rewrite Hone in Heq.
    destruct ps as [|x ps'] using rev_ind.
    { simpl in Heq. done. }
    rewrite removelast_last in Heq. apply app_inv_head in Heq.
    injection Heq as Heq.
    assert (Hnm : name {| root := rt; parts := ps' ++ [x] |} = x)
      by (unfold name; cbn [parts]; apply last_last).
    destruct (stem_of_name {| root := rt; parts := ps' ++ [x] |}) as [Hs|(sfx & Hn)].
    + rewrite Hs, Hnm in Heq. apply (f_equal length) in Heq.
      rewrite !length_app in Heq. simpl in Heq. lia.
    + rewrite Hnm in Hn. rewrite Hn in Heq at 2.
      apply app_inv_head in Heq. done.
  - apply (f_equal length) in Heq. rewrite length_app in Heq.
    revert Heq Htwo. generalize (length (components
      (stem {| root := rt; parts := ps |} ++ "-" ++ lbl ++ ".svg"))).
    intros k Heq Hk. destruct ps as [|x ps'] using rev_ind.
    + simpl in Heq. lia.
    + rewrite removelast_last, length_app in Heq. simpl in Heq. lia.
Qed.

(** The path [split] gives the file of a layer is never the path of the
    source document, whatever the label, when the last component of the
    source path holds no separator, as every component a path is built
    with does.  The paths differ as paths: their components are compared,
    not the files they lead to, and a label with [/../] in it can lead
    back to the source through the file system. *)
Theorem split_output_path_differs (path : PurePath) (layer : Layer) :
  "/"%char ∉ name path ->
  output_path_of (parent path) (stem path) layer <> path.
Proof.
  intros Hname Heq. destruct path as [rt ps].
  unfold output_path_of, truediv, parent in Heq.
  apply (f_equal parts) in Heq. cbn [root parts] in Heq.
  by apply (output_parts_differ rt ps (Layer_label layer)).
Qed.

Lemma split_output_path_differs_witness :
  output_path_of (parent plan_svg) (stem plan_svg) (Build_Layer outline) <> plan_svg.
Proof.
  apply split_output_path_differs. intros H. not_in_literal H.
Defined.


(** ** More on the g-code driver *)

Section MoreEmissionProperties.
Context {FS : Type} {lib : SvgToGcode FS}.

Lemma G_ret_run {A} (a : A) (c : Compiler Gcode) : (mret a : G Gcode A) c = (c, Ok a).
Proof. done. Qed.

Lemma call_run {A} (f : Gcode -> Gcode * A) (c : Compiler Gcode) :
  call f c = (with_interface (f (interface c)).1 c, Ok (f (interface c)).2).
Proof. unfold call, with_interface. by destruct (f (interface c)). Qed.

Lemma get_run {A} (f : Compiler Gcode -> A) (c : Compiler Gcode) :
  get f c = (c, Ok (f c)).
Proof. done. Qed.

Lemma moves_run (line_chain : list (Line Vector)) (c : Compiler Gcode) :
  exists i ms,
    moves line_chain c = (with_interface i c, Ok ms) /\
    length ms = length line_chain.
Proof.
  revert c. induction line_chain as [|line rest IH]; intros c.
  - exists (interface c), []. split; [|done]. cbn [moves]. rewrite G_ret_run.
    by destruct c.
  - cbn [moves]. rewrite G_bind_run, call_run. cbn iota beta.
    rewrite G_bind_run.
    destruct (IH (with_interface (linear_move (end_ line) (interface c)).1 c))
      as (i & ms & -> & Hlen). cbn iota beta. rewrite G_ret_run.
    exists i, ((linear_move (end_ line) (interface c)).2 :: ms).
    split; [done | simpl; lia].
Qed.

(** Runs [patched_append_line_chain] up to the setting of the power. *)
Ltac run_setup Haway :=
  unfold patched_append_line_chain;
  rewrite G_bind_run, get_run; cbn iota beta; rewrite Haway;
  rewrite G_bind_run;
  rewrite G_bind_run, call_run; cbn iota beta;
  rewrite G_bind_run, get_run; cbn iota beta;
  rewrite G_bind_run, call_run; cbn iota beta;
  rewrite G_bind_run, call_run; cbn iota beta;
  rewrite G_bind_run, get_run; cbn iota beta;
  rewrite G_bind_run, call_run; cbn iota beta;
  rewrite G_bind_run.

(** The setting up that a chain away from the current position gets: up
    to the setting of the power. *)
Lemma append_line_chain_setup (first : Line Vector) (rest : list (Line Vector))
    (power : Q) (c : Compiler Gcode) :
  away_from c first = true ->
  exists i,
    match patched_set_laser_power power with
    | Raise err =>
        patched_append_line_chain (first :: rest) power c
        = (with_interface i c, Raise err)
    | Ok _ =>
        exists j code,
          patched_append_line_chain (first :: rest) power c
          = ({| interface := j; movement_speed := movement_speed c;
                cutting_speed := cutting_speed c; pass_depth := pass_depth c;
                dwell_time := dwell_time c; body := body c ++ code |}, Ok ()) /\
          length code
          = (5 + (if (0 <? dwell_time c)%Z then 1 else 0) + S (length rest))%nat
    end.
Proof.
  intros Haway. unfold away_from in Haway.
  destruct (patched_set_laser_power power) as [c5|err] eqn:Hpow.
  - exists (interface c). run_setup Haway. rewrite Hpow. cbn iota beta.
    rewrite G_bind_run, get_run. cbn iota beta. cbn [dwell_time with_interface].
    destruct (0 <? dwell_time c) eqn:Hd.
    + rewrite G_bind_run, call_run. cbn iota beta. rewrite G_ret_run. cbn iota beta.
      rewrite G_bind_run.
      match goal with |- context [moves _ ?c1] =>
        destruct (moves_run (first :: rest) c1) as (j & ms & -> & Hlen)
      end.
      cbn iota beta. unfold body_extend. cbn [interface movement_speed cutting_speed
        pass_depth dwell_time body with_interface].
      eexists _, _. split; [reflexivity|]. simpl in *. lia.
    + rewrite G_ret_run. cbn iota beta. rewrite G_bind_run.
      match goal with |- context [moves _ ?c1] =>
        destruct (moves_run (first :: rest) c1) as (j & ms & -> & Hlen)
      end.
      cbn iota beta. unfold body_extend. cbn [interface movement_speed cutting_speed
        pass_depth dwell_time body with_interface].
      eexists _, _. split; [reflexivity|]. simpl in *. lia.
  - eexists. run_setup Haway. rewrite Hpow. cbn iota beta.
    unfold with_interface. cbn [interface movement_speed cutting_speed
      pass_depth dwell_time body]. reflexivity.
Qed.

(** A chain that starts at the current position: the moves alone, and the
    power is not looked at. *)
Lemma append_line_chain_moves (first : Line Vector) (rest : list (Line Vector))
    (power : Q) (c : Compiler Gcode) :
  away_from c first = false ->
  exists j code,
    patched_append_line_chain (first :: rest) power c
    = ({| interface := j; movement_speed := movement_speed c;
          cutting_speed := cutting_speed c; pass_depth := pass_depth c;
          dwell_time := dwell_time c; body := body c ++ code |}, Ok ()) /\
    length code = S (length rest).
Proof.
  intros Haway. unfold away_from in Haway.
  unfold patched_append_line_chain.
  rewrite G_bind_run, get_run. cbn iota beta. rewrite Haway.
  rewrite G_bind_run, G_ret_run. cbn iota beta. rewrite G_bind_run.
  destruct (moves_run (first :: rest) c) as (j & ms & -> & Hlen).
  cbn iota beta. unfold body_extend. cbn [interface movement_speed cutting_speed
    pass_depth dwell_time body with_interface].
  eexists _, _. split; [reflexivity|]. simpl in *. lia.
Qed.

(** Appending a chain that is not empty, when the power is in range or
    when the chain starts at the current position (the power is then not
    looked at, in range or not): the call returns, the body gets the
    instructions at its end, one move per line of the chain after five
    instructions of setting up when the chain is away from the current
    position (six with a dwell), and the settings stay. *)
Theorem append_line_chain_appends (first : Line Vector) (rest : list (Line Vector))
    (power : Q) (c : Compiler Gcode) :
  away_from c first = false \/ (exists s, patched_set_laser_power power = Ok s) ->
  exists c' code,
    patched_append_line_chain (first :: rest) power c = (c', Ok ()) /\
    body c' = body c ++ code /\
    length code
    = ((if away_from c first
        then 5 + (if (0 <? dwell_time c)%Z then 1 else 0) else 0)
       + S (length rest))%nat /\
    same_settings c c'.
Proof.
  intros H. destruct (away_from c first) eqn:Haway.
  - destruct H as [|[s Hs]]; [done|].
    destruct (append_line_chain_setup first rest power c Haway) as [i Hi].
    rewrite Hs in Hi. destruct Hi as (j & code & -> & Hlen).
    eexists _, code. split; [reflexivity|]. split; [done|]. split; [done|].
    by repeat split.
  - destruct (append_line_chain_moves first rest power c Haway)
      as (j & code & -> & Hlen).
    eexists _, code. split; [reflexivity|]. split; [done|]. split; [done|].
    by repeat split.
Qed.

(** A chain that is not empty is refused exactly when it is away from the
    current position and the power is out of range; the exception is the
    out-of-bounds [ValueError], and the body and the settings are as they
    were. *)
Theorem append_line_chain_refused (first : Line Vector) (rest : list (Line Vector))
    (power : Q) (c : Compiler Gcode) :
  ((exists err, (patched_append_line_chain (first :: rest) power c).2 = Raise err) <->
   away_from c first = true /\ ((power < 0)%Q \/ (1 < power)%Q)) /\
  (away_from c first = true -> (power < 0)%Q \/ (1 < power)%Q ->
   (patched_append_line_chain (first :: rest) power c).2
     = Raise (ValueError (OutOfBounds power)) /\
   body (patched_append_line_chain (first :: rest) power c).1 = body c /\
   same_settings c (patched_append_line_chain (first :: rest) power c).1).
Proof.
  assert (Hout : away_from c first = true -> (power < 0)%Q \/ (1 < power)%Q ->
    (patched_append_line_chain (first :: rest) power c).2
      = Raise (ValueError (OutOfBounds power)) /\
    body (patched_append_line_chain (first :: rest) power c).1 = body c /\
    same_settings c (patched_append_line_chain (first :: rest) power c).1).
  { intros Haway Hp.
    destruct (append_line_chain_setup first rest power c Haway) as [i Hi].
    rewrite (set_laser_power_outside power Hp) in Hi. rewrite Hi.
    by repeat split. }
  split; [|exact Hout]. split.
  - intros [err Herr].
    destruct (away_from c first) eqn:Haway.
    + split; [done|].
      destruct (Qlt_le_dec power 0) as [|H0]; [by left|].
      destruct (Qlt_le_dec 1 power) as [|H1]; [by right|].
      destruct (append_line_chain_setup first rest power c Haway) as [i Hi].
      rewrite (set_laser_power_inside power H0 H1) in Hi.
      destruct Hi as (j & code & Hrun & _). by rewrite Hrun in Herr.
    + destruct (append_line_chain_moves first rest power c Haway)
        as (j & code & Hrun & _). by rewrite Hrun in Herr.
  - intros [Haway Hp]. destruct (Hout Haway Hp) as [-> _]. eauto.
Qed.

(** Whatever a chain is and whatever comes of it, appending it leaves the
    instructions that were in the body where they were, and the settings
    as they were. *)
Lemma append_line_chain_frame (line_chain : list (Line Vector)) (power : Q)
    (c : Compiler Gcode) :
  body c `prefix_of` body (patched_append_line_chain line_chain power c).1 /\
  same_settings c (patched_append_line_chain line_chain power c).1.
Proof.
  destruct line_chain as [|first rest].
  { cbn [patched_append_line_chain]. unfold raise. by repeat split. }
  destruct (away_from c first) eqn:Haway.
  - destruct (append_line_chain_setup first rest power c Haway) as [i Hi].
    destruct (patched_set_laser_power power) as [s|err].
    + destruct Hi as (j & code & -> & _). split; [by apply prefix_app_r|].
      by repeat split.
    + rewrite Hi. by repeat split.
  - destruct (append_line_chain_moves first rest power c Haway)
      as (j & code & -> & _).
    split; [by apply prefix_app_r | by repeat split].
Qed.

(** [append_curves] only ever adds to the end of the body: whatever the
    curves and the power, and whether it returns or raises, the
    instructions that were there stay in front and the speeds, the pass
    depth and the dwell time are not touched. *)
Theorem append_curves_only_appends (curves : list Curve) (power : Q)
    (c : Compiler Gcode) :
  body c `prefix_of` body (patched_append_curves curves power c).1 /\
  same_settings c (patched_append_curves curves power c).1.
Proof.
  revert c. induction curves as [|curve rest IH]; intros c.
  - cbn [patched_append_curves]. rewrite G_ret_run. by repeat split.
  - cbn [patched_append_curves]. rewrite G_bind_run.
    pose proof (append_line_chain_frame (line_segment_approximation curve) power c)
      as [Hb Hs].
    destruct (patched_append_line_chain _ _ c) as [c1 [[]|err]]; cbn [fst] in *.
    + destruct (IH c1) as [Hb' Hs']. split; [by etrans|].
      unfold same_settings in *. intuition congruence.
    + done.
Qed.

(** Appending curves one list after another is appending them at once: the
    second list is taken up where the first left the compiler, and not at
    all when the first raised. *)
Theorem append_curves_app (curves1 curves2 : list Curve) (power : Q)
    (c : Compiler Gcode) :
  patched_append_curves (curves1 ++ curves2) power c
  = match patched_append_curves curves1 power c with
    | (c', Ok _) => patched_append_curves curves2 power c'
    | (c', Raise err) => (c', Raise err)
    end.
Proof.
  revert c. induction curves1 as [|curve rest IH]; intros c.
  - cbn [app patched_append_curves]. by rewrite G_ret_run.
  - cbn [app patched_append_curves]. rewrite !G_bind_run.
    destruct (patched_append_line_chain _ _ c) as [c1 [[]|err]]; [|done].
    apply IH.
Qed.

(** With the power 5 that [to_gcode] passes, the only drawing it writes a
    program for is the one without curves, and that program is empty; on
    any other drawing it raises before writing: [NameError] when the
    first chain is empty, the out-of-bounds [ValueError] when it is not. *)
Theorem to_gcode_writes_only_empty_program (path : PurePath) (files : FS)
    (curves : list Curve) :
  position (interface (Compiler_init 1000 300 0)) = None ->
  parse_file path files = Ok curves ->
  match curves with
  | [] =>
      to_gcode path files
      = compile_to_file (Compiler_init 1000 300 0) "drawing.gcode" 2 files
  | curve :: _ =>
      to_gcode path files
      = (files,
         Raise (match line_segment_approximation curve with
                | [] => NameError "warnings"
                | _ :: _ => ValueError (OutOfBounds 5)
                end))
  end.
Proof.
  intros Hpos Hparse. unfold to_gcode. rewrite Hparse.
  destruct curves as [|curve rest].
  - cbn [patched_append_curves]. by rewrite G_ret_run.
  - cbn [patched_append_curves]. rewrite G_bind_run.
    destruct (line_segment_approximation curve) as [|first chain].
    + by rewrite append_line_chain_empty.
    + destruct (append_line_chain_setup first chain 5 (Compiler_init 1000 300 0))
        as [i Hi].
      { unfold away_from. by rewrite Hpos. }
      rewrite (set_laser_power_outside 5) in Hi by (by right).
      by rewrite Hi.
Qed.

(** When [formulas.linear_map] is the linear map it is named after, the
    instruction for a power in range is [M3 S<n>;] with [n] a whole number
    from 0 to 255: the floor of 255 times the power, 0 for no power and
    255 for full power. *)
Theorem set_laser_power_value (power : Q) :
  (0 <= power)%Q -> (power <= 1)%Q ->
  (linear_map 0 255 power == 255 * power)%Q ->
  exists n : Z,
    patched_set_laser_power power = Ok ("M3 S" ++ pretty n ++ ";") /\
    n = Qfloor (255 * power) /\ 0 <= n <= 255 /\
    ((power == 0)%Q -> n = 0) /\ ((power == 1)%Q -> n = 255).
Proof.
  intros H0 H1 Hmap. exists (Qfloor (linear_map 0 255 power)).
  rewrite set_laser_power_inside by done. split; [done|].
  rewrite Hmap. split; [done|].
  assert (Hlo : (0 <= 255 * power)%Q)
    by (revert H0; destruct power; unfold Qle; simpl; lia).
  assert (Hhi : (255 * power <= 255)%Q)
    by (revert H1; destruct power; unfold Qle; simpl; lia).
  split.
  - split.
    + change 0 with (Qfloor 0). by apply Qfloor_resp_le.
    + change 255 with (Qfloor 255). by apply Qfloor_resp_le.
  - split; intros Hp; rewrite Hp; reflexivity.
Qed.

End MoreEmissionProperties.


Lemma append_line_chain_appends_witness :
  exists c' code,
    patched_append_line_chain (lib := toy_library) [stroke] (1 / 2)
      (Compiler_init 1000 300 0) = (c', Ok ()) /\
    body c' = body (Compiler_init (SvgToGcode := toy_library) 1000 300 0) ++ code /\
    length code = 6%nat /\
    same_settings (lib := toy_library) (Compiler_init 1000 300 0) c'.
Proof.
  apply (append_line_chain_appends (lib := toy_library) stroke [] (1 / 2)
           (Compiler_init 1000 300 0)).
  right. eexists. reflexivity.
Defined.

Lemma to_gcode_writes_only_empty_program_witness :
  to_gcode (lib := toy_library) drawing_svg ([], [])
  = (([], [("drawing.gcode" : str, [])]), Ok ()).
Proof.
  exact (to_gcode_writes_only_empty_program (lib := toy_library) drawing_svg
           ([], []) [] eq_refl eq_refl).
Defined.

Lemma set_laser_power_value_witness :
  exists n : Z,
    patched_set_laser_power (lib := toy_library) (1 / 2) = Ok ("M3 S" ++ pretty n ++ ";") /\
    n = Qfloor (255 * (1 / 2)) /\ 0 <= n <= 255 /\
    ((1 / 2 == 0)%Q -> n = 0) /\ ((1 / 2 == 1)%Q -> n = 255).
Proof.
  apply (set_laser_power_value (lib := toy_library) (1 / 2)).
  - unfold Qle. simpl. lia.
  - unfold Qle. simpl. lia.
  - reflexivity.
Defined.

(** ** The command line *)

Lemma split_on_pieces (c : ascii) (s w : str) : w ∈ split_on c s -> c ∉ w.
Proof.
  revert w. induction s as [|a s IH]; intros w; cbn [split_on].
  - intros ->%list_elem_of_singleton. apply not_elem_of_nil.
  - destruct (decide (a = c)) as [->|Hne].
    + intros [->|Hw]%elem_of_cons; [apply not_elem_of_nil | by apply IH].
    + destruct (split_on c s) as [|w0 ws] eqn:Hs.
      * intros ->%list_elem_of_singleton.
        apply not_elem_of_cons. split; [congruence | apply not_elem_of_nil].
      * intros [->|Hw]%elem_of_cons.
        -- apply not_elem_of_cons. split; [congruence|]. apply IH. by left.
        -- apply IH. by right.
Qed.

Lemma name_of_PurePath (s : str) : "/"%char ∉ name (PurePath_of s).
Proof.
  unfold name, PurePath_of. cbn [parts].
  destruct (components s) as [|x cs] eqn:Hc using rev_ind; [apply not_elem_of_nil|].
  rewrite last_last. apply (split_on_pieces _ s).
  assert (Hin : x ∈ components s) by (rewrite Hc; apply elem_of_app; right; by left).
  unfold components in Hin. by apply list_elem_of_filter in Hin as [_ ?].
Qed.

(** [laserscape split F] gives no call of [render] the path [F]: whatever
    the file name, the flags, the document and the outcome, every path
    the run renders to differs, as a path, from the path built from its
    argument. *)
Theorem main_split_paths_differ_from_argument {FS} {ink : Pyinkscape FS} {lib : SvgToGcode FS}
    (arguments : CommandLine) (w : World FS) (p : PurePath) (doc : Canvas) :
  arg_split arguments = true ->
  (p, doc) ∈ rendered (main arguments w).1 ->
  (p, doc) ∈ rendered w \/ p <> PurePath_of (arg_inkscape_file arguments).
Proof.
  intros Hsplit. unfold main. rewrite Hsplit.
  set (path := PurePath_of (arg_inkscape_file arguments)).
  set (ov := arg_overwrite arguments).
  assert (Hfst : ((split path ov None;; mret (None : option Z)) w).1
                 = (split path ov None w).1).
  { rewrite M_bind_run. by destruct (split path ov None w) as [w1 [[]|err]]. }
  rewrite Hfst. clear Hfst.
  destruct (load path (fs w)) as [cv|err] eqn:Hload.
  - destruct (split_layers_spec cv) as (e & c & Hlayers & _).
    rewrite (split_run path ov w cv e c _ Hload Hlayers).
    match goal with |- context [for_each (split_one ?cn ?d ?b _) ?ls ?w1] =>
      destruct (for_each_split_one cn d b ov cv ls w1) as [_ Hrun];
      [cbn [heap]; by rewrite lookup_app_r, Nat.sub_diag by lia|]
    end.
    destruct Hrun as (n & -> & _). cbn [rendered].
    intros [Hin|Hin]%elem_of_app; [by left|]. right.
    apply elem_of_take in Hin as (j & Hj & _).
    unfold plan in Hj. rewrite list_lookup_fmap in Hj.
    destruct ((e ++ c) !! j) as [l|]; [|done]. injection Hj as <- _.
    intros Heq. pose proof (name_of_PurePath (arg_inkscape_file arguments)) as Hname.
    fold path in Hname. destruct path as [rt ps].
    unfold output_path_of, truediv, parent in Heq.
    apply (f_equal parts) in Heq. cbn [root parts] in Heq.
    by apply (output_parts_differ rt ps (Layer_label l)).
  - rewrite (split_no_document path ov w err Hload). by left.
Qed.

Lemma main_split_paths_differ_from_argument_witness :
  (plan_cut_svg, [outline]) ∈ rendered first_run \/
  plan_cut_svg <> PurePath_of (arg_inkscape_file split_plan).
Proof.
  apply (main_split_paths_differ_from_argument (ink := files_pyinkscape)
           (lib := files_svg_to_gcode) split_plan first_run plan_cut_svg [outline]).
  - reflexivity.
  - vm_compute. constructor 2. constructor 1.
Defined.
